(** * Console snake: occupancy grid, snake controller and per-tick action

    A shallow embedding of [snake.py].  Python integers are [Z], Python lists
    are Rocq lists indexed the way Python indexes them (negative indices count
    from the end, anything else out of range raises [IndexError]), and the
    mutable objects the game shares (the game field, the snake, the registry
    of game objects, the score) live in one [World] record that is threaded
    through a small state-and-exception monad.  A raised exception keeps the
    world as it was mutated up to the raise, as in Python. *)

From Stdlib Require Import ZArith Lia.
From stdpp Require Import base option list strings pretty.

Open Scope Z_scope.

(** ** Python list indexing *)

Definition py_norm (len : nat) (i : Z) : option nat :=
  if decide (0 <= i < Z.of_nat len) then Some (Z.to_nat i)
  else if decide (- Z.of_nat len <= i < 0) then Some (Z.to_nat (Z.of_nat len + i))
  else None.

Definition py_getitem {A} (l : list A) (i : Z) : option A :=
  n ← py_norm (length l) i; l !! n.

Definition py_setitem {A} (l : list A) (i : Z) (v : A) : option (list A) :=
  n ← py_norm (length l) i; Some (<[n := v]> l).

(** [range(lo, hi)] *)
Definition range (lo hi : Z) : list Z := seqZ lo (hi - lo).

(** ** Exceptions and the state monad *)

Inductive exn : Type :=
| GameOver (msg : string)
| IndexError
| AttributeError.

Inductive outcome (A : Type) : Type :=
| Ret (a : A)
| Raise (e : exn).
Arguments Ret {A} a.
Arguments Raise {A} e.

Definition of_option {A} (o : option A) (e : exn) : outcome A :=
  match o with Some a => Ret a | None => Raise e end.

(** ** Data *)

Inductive Direction : Type := LEFT | RIGHT | UP | DOWN.

Global Instance Direction_eq_dec : EqDecision Direction.
Proof. solve_decision. Defined.

Module SnakeElement.
Record t : Type := mk { y : Z; x : Z }.
End SnakeElement.

Module Mouse.
Record t : Type := mk { y : Z; x : Z }.

Definition intersect (self : t) (head : SnakeElement.t) : bool :=
  bool_decide (x self = SnakeElement.x head) && bool_decide (y self = SnakeElement.y head).
End Mouse.

Global Instance SnakeElement_eq_dec : EqDecision SnakeElement.t.
Proof. solve_decision. Defined.
Global Instance Mouse_eq_dec : EqDecision Mouse.t.
Proof. solve_decision. Defined.

(** ** The occupancy grid *)

Module GameField.
Record t : Type := mk { cells : list (list bool); width : Z; height : Z }.

(** [GameField.__init__] *)
Definition init (width height : Z) : t :=
  mk (replicate (Z.to_nat height) (replicate (Z.to_nat width) false)) width height.

(** [cells[y][x]] *)
Definition get (c : list (list bool)) (y x : Z) : option bool :=
  row ← py_getitem c y; py_getitem row x.

(** [cells[y][x] = v] *)
Definition set (c : list (list bool)) (y x : Z) (v : bool) : option (list (list bool)) :=
  row ← py_getitem c y; row' ← py_setitem row x v; py_setitem c y row'.

(** The body of the inner loop of [get_free_cell]: the cells the test
    [not self.cells[y][x]] appends for one [(y, x)]. *)
Definition scan (self : t) (y x : Z) : option (list (Z * Z)) :=
  get (cells self) y x ≫= λ b : bool, Some (if b then [] else [(y, x)]).

(** The list [free_cells] built by the two loops, [None] when an index is
    out of range. *)
Definition free_cells (self : t) : option (list (Z * Z)) :=
  @concat _ <$> mapM (λ y : Z, @concat _ <$> mapM (scan self y) (range 1 (width self - 2)))
                  (range 1 (height self - 2)).

(** [random.choice(seq)] with the random draw [r] made explicit. *)
Definition choice {A} (seq : list A) (r : nat) : option A :=
  seq !! (r mod length seq)%nat.

(** [GameField.get_free_cell] *)
Definition get_free_cell (self : t) (r : nat) : outcome (Z * Z) :=
  match free_cells self with
  | None => Raise IndexError
  | Some [] => Raise (GameOver "win")
  | Some fc => of_option (choice fc r) IndexError
  end.
End GameField.

(** ** The world: every object the snake controller reads or mutates *)

Record World : Type := mkWorld {
  game_field : GameField.t;
  direction : Direction;
  direction_changed : bool;
  snake_elements : list SnakeElement.t;
  mice : list Mouse.t;           (* the [Mouse] objects of [game_world.game_objects], in order *)
  score : Z                      (* [info.score] *)
}.

Definition M (A : Type) : Type := World → outcome A * World.

Global Instance M_ret : MRet M := λ A a w, (Ret a, w).
Global Instance M_bind : MBind M := λ A B f m w,
  match m w with
  | (Ret a, w') => f a w'
  | (Raise e, w') => (Raise e, w')
  end.

(** Bind with the computation first, so that the type of the bound variable
    is known when the continuation is checked. *)
Definition bind {A B} (m : M A) (f : A → M B) : M B := m ≫= f.

Notation "x <- y ; z" := (bind y (λ x, z))
  (at level 20, y at level 100, z at level 200, only parsing) : stdpp_scope.

Definition raise {A} (e : exn) : M A := λ w, (Raise e, w).
Definition gets {A} (f : World → A) : M A := λ w, (Ret (f w), w).
Definition modify (f : World → World) : M unit := λ w, (Ret tt, f w).
Definition lift {A} (o : outcome A) : M A := λ w, (o, w).

Definition with_cells (c : list (list bool)) (w : World) : World :=
  mkWorld (GameField.mk c (GameField.width (game_field w)) (GameField.height (game_field w)))
          (direction w) (direction_changed w) (snake_elements w) (mice w) (score w).
Definition with_direction (d : Direction) (w : World) : World :=
  mkWorld (game_field w) d (direction_changed w) (snake_elements w) (mice w) (score w).
Definition with_direction_changed (b : bool) (w : World) : World :=
  mkWorld (game_field w) (direction w) b (snake_elements w) (mice w) (score w).
Definition with_snake_elements (l : list SnakeElement.t) (w : World) : World :=
  mkWorld (game_field w) (direction w) (direction_changed w) l (mice w) (score w).
Definition with_mice (l : list Mouse.t) (w : World) : World :=
  mkWorld (game_field w) (direction w) (direction_changed w) (snake_elements w) l (score w).
Definition with_score (n : Z) (w : World) : World :=
  mkWorld (game_field w) (direction w) (direction_changed w) (snake_elements w) (mice w) n.

(** [for a in l: acc = body(a, acc)] *)
Fixpoint for_fold {A B} (l : list A) (acc : B) (body : A → B → M B) : M B :=
  match l with
  | [] => mret acc
  | a :: l' => acc' <- body a acc; for_fold l' acc' body
  end.

(** [for a in l: body(a)] *)
Definition for_each {A} (l : list A) (body : A → M unit) : M unit :=
  for_fold l tt (λ a _, body a).

(** [self.game_field.cells[y][x]] *)
Definition cell (y x : Z) : M bool :=
  c <- gets (λ w, GameField.cells (game_field w));
  lift (of_option (GameField.get c y x) IndexError).

(** [self.game_field.cells[y][x] = v] *)
Definition set_cell (y x : Z) (v : bool) : M unit :=
  c <- gets (λ w, GameField.cells (game_field w));
  c' <- lift (of_option (GameField.set c y x v) IndexError);
  modify (with_cells c').

(** [self.snake_elements[i]] *)
Definition element (i : Z) : M SnakeElement.t :=
  l <- gets snake_elements;
  lift (of_option (py_getitem l i) IndexError).

(** [self.snake_elements[i].x = ...; self.snake_elements[i].y = ...]: the
    element object is mutated in place, the list keeps pointing at it. *)
Definition set_element (i : Z) (e : SnakeElement.t) : M unit :=
  l <- gets snake_elements;
  l' <- lift (of_option (py_setitem l i e) IndexError);
  modify (with_snake_elements l').

(** ** Border *)

Module Border.
(** [Border.__init__]: marks the perimeter of the game field. *)
Definition init (height width : Z) : M unit :=
  for_each (range 0 width) (λ x,
    set_cell 0 x true;;
    set_cell (height - 1) x true);;
  for_each (range 0 height) (λ y,
    set_cell y 0 true;;
    set_cell y (width - 1) true).
End Border.

(** ** Snake *)

Module Snake.
(** The [head] property. *)
Definition head : M SnakeElement.t := element 0.

(** [Snake.__init__], with the random draw of [get_free_cell] explicit.
    The fields of the snake live in the world; the constructor resets them. *)
Definition init (r : nat) : M unit :=
  modify (with_direction RIGHT);;
  modify (with_direction_changed false);;
  gf <- gets game_field;
  free_cell <- lift (GameField.get_free_cell gf r);
  modify (with_snake_elements [SnakeElement.mk free_cell.1 free_cell.2]);;
  set_cell free_cell.1 free_cell.2 true.

Definition change_direction (new_direction : Direction) : M unit :=
  changed <- gets direction_changed;
  if negb changed then
    d <- gets direction;
    (if bool_decide (new_direction = RIGHT) && negb (bool_decide (d ∈ [RIGHT; LEFT]))
     then modify (with_direction RIGHT)
     else if bool_decide (new_direction = LEFT) && negb (bool_decide (d ∈ [RIGHT; LEFT]))
     then modify (with_direction LEFT)
     else if bool_decide (new_direction = UP) && negb (bool_decide (d ∈ [UP; DOWN]))
     then modify (with_direction UP)
     else if bool_decide (new_direction = DOWN) && negb (bool_decide (d ∈ [UP; DOWN]))
     then modify (with_direction DOWN)
     else mret tt);;
    modify (with_direction_changed true)
  else mret tt.

Definition _move_right : M unit :=
  h <- head;
  blocked <- cell (SnakeElement.y h) (SnakeElement.x h + 1);
  if blocked then raise (GameOver "bumped right")
  else h <- head; set_element 0 (SnakeElement.mk (SnakeElement.y h) (SnakeElement.x h + 1)).

Definition _move_left : M unit :=
  h <- head;
  blocked <- cell (SnakeElement.y h) (SnakeElement.x h - 1);
  if blocked then raise (GameOver "bumped left")
  else h <- head; set_element 0 (SnakeElement.mk (SnakeElement.y h) (SnakeElement.x h - 1)).

Definition _move_up : M unit :=
  h <- head;
  blocked <- cell (SnakeElement.y h - 1) (SnakeElement.x h);
  if blocked then raise (GameOver "bumped up")
  else h <- head; set_element 0 (SnakeElement.mk (SnakeElement.y h - 1) (SnakeElement.x h)).

Definition _move_down : M unit :=
  h <- head;
  blocked <- cell (SnakeElement.y h + 1) (SnakeElement.x h);
  if blocked then raise (GameOver "bumped down")
  else h <- head; set_element 0 (SnakeElement.mk (SnakeElement.y h + 1) (SnakeElement.x h)).

(** The [if]/[elif] chain of [_move_head] over the heading. *)
Definition _move_in (d : Direction) : M unit :=
  match d with
  | RIGHT => _move_right
  | LEFT => _move_left
  | UP => _move_up
  | DOWN => _move_down
  end.

Definition _move_head : M unit :=
  d <- gets direction;
  _move_in d;;
  h <- head;
  set_cell (SnakeElement.y h) (SnakeElement.x h) true.

(** The body of the loop of [_move_tail]: [prev] holds [prev_elem_y] and
    [prev_elem_x], the result is their value after the iteration. *)
Definition _move_tail_body (snake_element_idx : Z) (prev : SnakeElement.t) : M SnakeElement.t :=
  tmp <- element snake_element_idx;
  set_element snake_element_idx prev;;
  set_cell (SnakeElement.y prev) (SnakeElement.x prev) true;;
  mret tmp.

Definition _move_tail : M unit :=
  e0 <- element 0;
  n <- gets (λ w, Z.of_nat (length (snake_elements w)));
  prev <- for_fold (range 1 n) e0 _move_tail_body;
  set_cell (SnakeElement.y prev) (SnakeElement.x prev) false.

Definition move : M unit :=
  _move_tail;;
  _move_head.

Definition grow : M unit :=
  h <- head;
  modify (λ w, with_snake_elements
                 (SnakeElement.mk (SnakeElement.y h) (SnakeElement.x h) :: snake_elements w) w);;
  _move_head.

(** [self.game_world.get_game_object(Mouse)]: the first mouse of the
    registry, [None] when there is none (then [.intersect] raises
    [AttributeError]). *)
Definition get_game_object_Mouse : M Mouse.t :=
  l <- gets mice;
  lift (of_option (l !! 0%nat) AttributeError).

(** [Snake.action], with the random draw of [get_free_cell] explicit: the
    tick when no key event is received while it runs ([action_with_keys]
    below is the tick beside the input thread). *)
Definition action (r : nat) : M unit :=
  move;;
  m <- get_game_object_Mouse;
  h <- head;
  (if Mouse.intersect m h then
     grow;;
     modify (λ w, with_score (score w + 1) w);;
     modify (with_mice []);;
     gf <- gets game_field;
     free_cell <- lift (GameField.get_free_cell gf r);
     modify (λ w, with_mice (mice w ++ [Mouse.mk free_cell.1 free_cell.2]) w)
   else mret tt);;
  modify (with_direction_changed false).
End Snake.

(** ** Input events and the game as a whole *)

Section Game.
(** Modelled from the spec: [curses.KEY_LEFT], [curses.KEY_RIGHT],
    [curses.KEY_UP] and [curses.KEY_DOWN] are constants of the curses
    library, outside the repository; the four recognized codes map one to
    one to the four headings. *)
Context (KEY_LEFT KEY_RIGHT KEY_UP KEY_DOWN : Z).

(** [Direction(event)]: the member whose value is [event], [None] for the
    [ValueError] of a value that is no member's. *)
Definition Direction_of (event : Z) : option Direction :=
  if decide (event = KEY_LEFT) then Some LEFT
  else if decide (event = KEY_RIGHT) then Some RIGHT
  else if decide (event = KEY_UP) then Some UP
  else if decide (event = KEY_DOWN) then Some DOWN
  else None.

(** [Snake.event_received]: the [ValueError] is caught and dropped. *)
Definition event_received (event : Z) : M unit :=
  match Direction_of event with
  | Some new_direction => Snake.change_direction new_direction
  | None => mret tt
  end.

(** What happens to the snake while the game runs: the input thread
    delivers a key code, or the game loop runs one tick with the random
    draw [r]. *)
Inductive step : Type :=
| Key (event : Z)
| Tick (r : nat).

Definition do_step (s : step) : M unit :=
  match s with
  | Key event => event_received event
  | Tick r => Snake.action r
  end.

Definition run (steps : list step) : M unit := for_each steps do_step.

(** [main] up to [game_world.run()]: the field, the border, the snake and
    the first mouse, with the two random draws explicit. *)
Definition main (width height : Z) (r0 r1 : nat) : outcome unit * World :=
  (Border.init height width;;
   Snake.init r0;;
   gf <- gets game_field;
   free_cell <- lift (GameField.get_free_cell gf r1);
   modify (λ w, with_mice (mice w ++ [Mouse.mk free_cell.1 free_cell.2]) w))
  (mkWorld (GameField.init width height) RIGHT false [] [] 0).

(** The game from the start: [main], then the steps. *)
Definition play (width height : Z) (r0 r1 : nat) (steps : list step) : outcome unit * World :=
  match main width height r0 r1 with
  | (Ret _, w) => run steps w
  | (Raise e, w) => (Raise e, w)
  end.

(** The input thread during a stretch of a tick: the loop of
    [InputProcessor.run] receives the key codes it reads, one after the
    other. *)
Definition keys (events : list Z) : M unit := for_each events event_received.

(** [Snake.action] with the input thread running beside it.  [action] itself
    takes no lock: [direction_lock] is held by [_move_head] for its body and
    by [change_direction] for its body, so a key event is received as a
    whole, and it can be received at any point of [action] outside the two
    calls of [_move_head].  The statements of [action] outside [_move_head]
    neither read nor write the heading or the per-tick flag before the final
    [clear], so the points that differ are three: before the advance of
    [move] ([k0], while the tail shifts), between the advance of [move] and
    the advance of [grow] ([k1]), and after them, before the flag is
    cleared ([k2]). *)
Definition action_with_keys (r : nat) (k0 k1 k2 : list Z) : M unit :=
  Snake._move_tail;;
  keys k0;;
  Snake._move_head;;
  keys k1;;
  m <- Snake.get_game_object_Mouse;
  h <- Snake.head;
  (if Mouse.intersect m h then
     Snake.grow;;
     keys k2;;
     modify (λ w, with_score (score w + 1) w);;
     modify (with_mice []);;
     gf <- gets game_field;
     free_cell <- lift (GameField.get_free_cell gf r);
     modify (λ w, with_mice (mice w ++ [Mouse.mk free_cell.1 free_cell.2]) w)
   else keys k2);;
  modify (with_direction_changed false).
End Game.

(** ** Vocabulary of the specification *)

(** The axis pairs: {Left, Right} and {Up, Down}. *)
Definition same_axis (a b : Direction) : bool :=
  match a, b with
  | (LEFT | RIGHT), (LEFT | RIGHT) => true
  | (UP | DOWN), (UP | DOWN) => true
  | _, _ => false
  end.

Definition opposite (d : Direction) : Direction :=
  match d with LEFT => RIGHT | RIGHT => LEFT | UP => DOWN | DOWN => UP end.

(** One cell further in heading [d]. *)
Definition advance (d : Direction) (e : SnakeElement.t) : SnakeElement.t :=
  match d with
  | RIGHT => SnakeElement.mk (SnakeElement.y e) (SnakeElement.x e + 1)
  | LEFT => SnakeElement.mk (SnakeElement.y e) (SnakeElement.x e - 1)
  | UP => SnakeElement.mk (SnakeElement.y e - 1) (SnakeElement.x e)
  | DOWN => SnakeElement.mk (SnakeElement.y e + 1) (SnakeElement.x e)
  end.

(** The cause carried by the collision signal for heading [d]. *)
Definition bumped (d : Direction) : string :=
  match d with
  | RIGHT => "bumped right"
  | LEFT => "bumped left"
  | UP => "bumped up"
  | DOWN => "bumped down"
  end.

(** The cell [(row, column)] of a segment and of a mouse. *)
Definition pos (e : SnakeElement.t) : Z * Z := (SnakeElement.y e, SnakeElement.x e).
Definition mouse_pos (m : Mouse.t) : Z * Z := (Mouse.y m, Mouse.x m).

(** The cells of a field, its one-cell border ring and its interior. *)
Definition in_grid (gf : GameField.t) (p : Z * Z) : Prop :=
  0 <= p.1 < GameField.height gf ∧ 0 <= p.2 < GameField.width gf.

Definition on_border (gf : GameField.t) (p : Z * Z) : Prop :=
  in_grid gf p ∧
  (p.1 = 0 ∨ p.1 = GameField.height gf - 1 ∨ p.2 = 0 ∨ p.2 = GameField.width gf - 1).

Definition interior (gf : GameField.t) (p : Z * Z) : Prop :=
  1 <= p.1 <= GameField.height gf - 2 ∧ 1 <= p.2 <= GameField.width gf - 2.

(** A grid of [height] rows of [width] cells each. *)
Definition shaped (height width : Z) (c : list (list bool)) : Prop :=
  Z.of_nat (length c) = height ∧ Forall (λ row, Z.of_nat (length row) = width) c.

Definition well_shaped (gf : GameField.t) : Prop :=
  shaped (GameField.height gf) (GameField.width gf) (GameField.cells gf).

(** Marked occupied, and free, in a grid. *)
Definition marked (c : list (list bool)) (p : Z * Z) : Prop :=
  GameField.get c p.1 p.2 = Some true.
Definition free (c : list (list bool)) (p : Z * Z) : Prop :=
  GameField.get c p.1 p.2 = Some false.

Definition on_snake (w : World) (p : Z * Z) : Prop := p ∈ pos <$> snake_elements w.

(** The occupancy invariant: the marked cells of the grid are exactly the
    border cells and the cells of the snake. *)
Definition occupancy (w : World) : Prop :=
  ∀ p, in_grid (game_field w) p →
    marked (GameField.cells (game_field w)) p ↔ on_border (game_field w) p ∨ on_snake w p.

(** The tick that starts in [w] is one in which the snake eats: [move]
    returns and the head it leaves is on the mouse. *)
Definition eats (w : World) : bool :=
  match Snake.move w with
  | (Ret _, w1) =>
      match mice w1, snake_elements w1 with
      | m :: _, h :: _ => Mouse.intersect m h
      | _, _ => false
      end
  | _ => false
  end.

(** The invariant of the running game: a well-shaped grid, a snake of at
    least one segment, all on different interior cells, and the occupancy
    invariant. *)
Record Inv (w : World) : Prop := mkInv {
  inv_shape : well_shaped (game_field w);
  inv_nonempty : snake_elements w ≠ [];
  inv_nodup : NoDup (pos <$> snake_elements w);
  inv_interior : Forall (λ e, interior (game_field w) (pos e)) (snake_elements w);
  inv_occupancy : occupancy w
}.

(** The same between the two halves of a move, when the head [h] is about
    to advance: the marked cells are the border and the cells of [t], the
    segments behind the head. *)
Record HeadInv (w : World) (h : SnakeElement.t) (t : list SnakeElement.t) : Prop := mkHeadInv {
  hinv_shape : well_shaped (game_field w);
  hinv_elements : snake_elements w = h :: t;
  hinv_head : interior (game_field w) (pos h);
  hinv_nodup : NoDup (pos <$> t);
  hinv_interior : Forall (λ e, interior (game_field w) (pos e)) t;
  hinv_occupancy :
    ∀ p, in_grid (game_field w) p →
      marked (GameField.cells (game_field w)) p ↔ on_border (game_field w) p ∨ p ∈ pos <$> t
}.

(** ** Closed forms used in the proofs *)

(** [cells[y][x] = v] for every [(y, x)] of [cs], in order. *)
Fixpoint set_all (c : list (list bool)) (cs : list (Z * Z)) (v : bool) : option (list (list bool)) :=
  match cs with
  | [] => Some c
  | p :: cs' => c' ← GameField.set c p.1 p.2 v; set_all c' cs' v
  end.

(** The cells [Border.__init__] marks, in the order it marks them. *)
Definition border_cells (height width : Z) : list (Z * Z) :=
  flat_map (λ x, [(0, x); (height - 1, x)]) (range 0 width)
  ++ flat_map (λ y, [(y, 0); (y, width - 1)]) (range 0 height).

(** ** Sample games

    The game of [main] on its 26 by 8 field, with the key codes of curses
    (258 down, 259 up, 260 left, 261 right; -1 is the "no input" value of a
    non-blocking [getch]). *)

Definition curses_play : Z → Z → nat → nat → list step → outcome unit * World :=
  play 260 261 259 258.

(** The snake at (1, 1) heading right, the mouse two cells ahead. *)
Definition world_start : World := Eval vm_compute in (main 26 8 0 1).2.

(** The snake at (1, 1) heading right, the mouse one cell ahead. *)
Definition world_mouse_ahead : World := Eval vm_compute in (main 26 8 0 0).2.

(** The snake at (1, 2) heading left, the mouse at (1, 1), next to the wall. *)
Definition steps_mouse_at_wall : list step :=
  [Key 258; Tick 0; Key 260; Tick 0; Key 259; Tick 0; Key 260].
Definition world_mouse_at_wall : World :=
  Eval vm_compute in (curses_play 26 8 2 0 steps_mouse_at_wall).2.

(** The snake at (1, 1) turned up, towards the wall. *)
Definition world_facing_wall : World :=
  Eval vm_compute in (curses_play 26 8 0 1 [Key 259]).2.

(** A snake of two segments, on (1, 3) and (1, 2), turned up towards the
    wall. *)
Definition steps_two_segments_facing_wall : list step := [Tick 100; Key 259].
Definition world_two_segments_facing_wall : World :=
  Eval vm_compute in (curses_play 26 8 0 0 steps_two_segments_facing_wall).2.

(** The game after two ticks with the mouse two cells ahead: the snake has
    eaten once and has two segments. *)
Definition steps_two_ticks : list step := [Tick 5; Tick 0].
Definition world_two_ticks : World :=
  Eval vm_compute in (curses_play 26 8 0 1 steps_two_ticks).2.

(** A snake of four segments coiled in a square, the head at (2, 6) turned
    up towards (1, 6), the cell of its last segment. *)
Definition steps_chasing_tail : list step :=
  [Tick 1; Tick 2; Tick 100; Key 258; Tick 0; Key 260; Tick 0; Key 259].
Definition world_chasing_tail : World :=
  Eval vm_compute in (curses_play 26 8 0 0 steps_chasing_tail).2.

(** A 4 by 4 field with its border and the snake on (1, 1): the state in
    which [main] would ask for the first mouse. *)
Definition field_4x4 : GameField.t := Eval vm_compute in game_field (main 4 4 0 0).2.

(** ** The rest of the program: vocabulary *)

(** The cells the loops of [get_free_cell] look at. *)
Definition scanned (gf : GameField.t) (p : Z * Z) : Prop :=
  1 <= p.1 < GameField.height gf - 2 ∧ 1 <= p.2 < GameField.width gf - 2.

(** [Direction.<member>.value]: the key code of a heading. *)
Definition Direction_value (KEY_LEFT KEY_RIGHT KEY_UP KEY_DOWN : Z) (d : Direction) : Z :=
  match d with
  | LEFT => KEY_LEFT
  | RIGHT => KEY_RIGHT
  | UP => KEY_UP
  | DOWN => KEY_DOWN
  end.

(** Two segments on neighbouring cells: one step apart in a row or in a
    column. *)
Definition adjacent (a b : SnakeElement.t) : Prop :=
  Z.abs (SnakeElement.y a - SnakeElement.y b) + Z.abs (SnakeElement.x a - SnakeElement.x b) = 1.

(** Every segment is next to the one behind it. *)
Fixpoint connected (l : list SnakeElement.t) : Prop :=
  match l with
  | a :: (b :: _) as t => adjacent a b ∧ connected t
  | _ => True
  end.

(** There is exactly one mouse, on a scanned cell the snake is not on. *)
Definition MouseInv (w : World) : Prop :=
  ∃ m, mice w = [m] ∧ scanned (game_field w) (mouse_pos m) ∧ ¬ on_snake w (mouse_pos m).

(** The invariant of the running game with its mouse and the shape of the
    snake. *)
Definition GameInv (w : World) : Prop :=
  Inv w ∧ MouseInv w ∧ connected (snake_elements w).

(** The computation [m] keeps the property [P] of the world, whether it
    returns or raises. *)
Definition keeps (P : World → Prop) {A} (m : M A) : Prop := ∀ w, P w → P (m w).2.

(** The computation [m] neither reads nor writes the heading and the
    per-tick flag: it does the same whatever they are, and leaves them as
    they were. *)
Definition heading_blind {A} (m : M A) : Prop :=
  ∀ d b w,
    m (with_direction_changed b (with_direction d w))
    = ((m w).1, with_direction_changed b (with_direction d (m w).2)).

(** ** Drawing

    A [draw] method is the list of calls [win.addstr(y, x, text,
    curses.A_BOLD)] it makes on the window, in order. *)

Record addstr : Type := Addstr { at_y : Z; at_x : Z; text : string }.

(** The cell a call writes its first character on. *)
Definition at_cell (a : addstr) : Z * Z := (at_y a, at_x a).

(** [SnakeElement.draw] *)
Definition SnakeElement_draw (self : SnakeElement.t) : list addstr :=
  [Addstr (SnakeElement.y self) (SnakeElement.x self) "X"].

(** [Mouse.draw] *)
Definition Mouse_draw (self : Mouse.t) : list addstr :=
  [Addstr (Mouse.y self) (Mouse.x self) "M"].

(** [Border.draw] *)
Definition Border_draw (height width : Z) : list addstr :=
  flat_map (λ x, [Addstr 0 x "#"; Addstr (height - 1) x "#"]) (range 0 width)
  ++ flat_map (λ y, [Addstr y 0 "#"; Addstr y (width - 1) "#"]) (range 0 height).

(** [Snake.draw] *)
Definition Snake_draw (w : World) : list addstr :=
  flat_map SnakeElement_draw (snake_elements w).

(** ** The info panel

    The score of [Info] is the [score] of the world; the panel keeps its
    place, its size and the game-over message. *)

Module Info.
Record t : Type := mk {
  top_y : Z; top_x : Z; height : Z; width : Z;
  game_over_message : string
}.

(** [Info.__init__] *)
Definition init (top_y top_x height width : Z) : t := mk top_y top_x height width "".

(** [Info.draw], with [self.score] as an argument; [f'{self.score}'] is
    the decimal numeral of the score. *)
Definition draw (self : t) (score : Z) : list addstr :=
  flat_map (λ x, [Addstr (top_y self + height self - 1) x "#"]) (range 0 (width self))
  ++ flat_map (λ y, [Addstr (top_y self + y) 0 "#";
                     Addstr (top_y self + y) (width self - 1) "#"]) (range 0 (height self))
  ++ (if decide (game_over_message self = "")
      then [Addstr (top_y self + 1) 2 ("Score: " +:+ pretty score)]
      else [Addstr (top_y self) 2 ("You " +:+ game_over_message self +:+ " :(");
            Addstr (top_y self + 1) 2 ("Result: " +:+ pretty score);
            Addstr (top_y self + 2) 2 "Press any key to exit"]).

End Info.

(** ** The registry of game objects *)

Module GameWorld.
(** The classes a game object is tested against. *)
Inductive class : Type :=
| CSubscriber | CDrawable | CFinalizer | CActionable
| CInfo | CBorder | CSnake | CMouse.

(** The objects [main] and [Snake.action] register: the info panel, the
    border, the snake, and mice. *)
Inductive game_object : Type :=
| an_Info
| a_Border
| a_Snake
| a_Mouse (m : Mouse.t).

(** [isinstance(o, T)], from the bases of the class statements. *)
Definition isinstance (o : game_object) (T : class) : bool :=
  match o, T with
  | an_Info, (CInfo | CDrawable | CFinalizer) => true
  | a_Border, (CBorder | CDrawable) => true
  | a_Snake, (CSnake | CSubscriber | CDrawable | CActionable) => true
  | a_Mouse _, (CMouse | CDrawable) => true
  | _, _ => false
  end.

(** [game_objects], the subscribers of the input processor, and
    [finalizers]. *)
Record t : Type := mk {
  game_objects : list game_object;
  subscribers : list game_object;
  finalizers : list game_object
}.

(** [GameWorld.__init__] *)
Definition init : t := mk [] [] [].

(** [GameWorld.add] *)
Definition add (game_object : game_object) (self : t) : t :=
  mk (game_objects self ++ [game_object])
     (if isinstance game_object CSubscriber
      then subscribers self ++ [game_object] else subscribers self)
     (if isinstance game_object CFinalizer
      then finalizers self ++ [game_object] else finalizers self).

(** [GameWorld.get_game_object]: the first object of the type, [None]
    when the loop ends without one. *)
Definition get_game_object (game_object_type : class) (self : t) : option game_object :=
  List.find (λ o, isinstance o game_object_type) (game_objects self).

(** [GameWorld.remove_game_object] *)
Definition remove_game_object (game_object_type : class) (self : t) : t :=
  mk (List.filter (λ o, negb (isinstance o game_object_type)) (game_objects self))
     (subscribers self) (finalizers self).

(** The mice of a registry, in order. *)
Definition mice_of (self : t) : list Mouse.t :=
  omap (λ o, match o with a_Mouse m => Some m | _ => None end) (game_objects self).

(** The registry as [main] builds it around the first mouse. *)
Definition of_main (m : Mouse.t) : t :=
  add (a_Mouse m) (add a_Snake (add a_Border (add an_Info init))).
End GameWorld.

(** ** The game loop *)

(** The registry while the game runs: the three objects [main] registers
    first, then the mice of the world. *)
Definition game_objects_of (w : World) : list GameWorld.game_object :=
  [GameWorld.an_Info; GameWorld.a_Border; GameWorld.a_Snake] ++ (GameWorld.a_Mouse <$> mice w).


(** [draw] of one game object; the border has the dimensions of the
    field. *)
Definition draw_object (w : World) (i : Info.t) (o : GameWorld.game_object) : list addstr :=
  match o with
  | GameWorld.an_Info => Info.draw i (score w)
  | GameWorld.a_Border =>
      Border_draw (GameField.height (game_field w)) (GameField.width (game_field w))
  | GameWorld.a_Snake => Snake_draw w
  | GameWorld.a_Mouse m => Mouse_draw m
  end.

(** [GameWorld._draw_objects] *)
Definition _draw_objects (w : World) (i : Info.t) : list addstr :=
  flat_map (draw_object w i)
    (List.filter (λ o, GameWorld.isinstance o GameWorld.CDrawable) (game_objects_of w)).




Section Loop.
Context (KEY_LEFT KEY_RIGHT KEY_UP KEY_DOWN : Z).



End Loop.

(** * Properties *)

(** ** Python indexing *)

Lemma py_norm_lt len i n : py_norm len i = Some n → (n < len)%nat.
Proof. unfold py_norm. repeat case_decide; intros; simplify_eq; lia. Qed.

Lemma py_norm_in_range len i :
  0 <= i < Z.of_nat len → py_norm len i = Some (Z.to_nat i).
Proof. intros. unfold py_norm. by rewrite decide_True. Qed.

Lemma py_norm_nonneg_inv len i n :
  0 <= i → py_norm len i = Some n → n = Z.to_nat i ∧ i < Z.of_nat len.
Proof. unfold py_norm. repeat case_decide; intros; simplify_eq; lia. Qed.

Lemma py_getitem_is_Some {A} (l : list A) i n :
  py_norm (length l) i = Some n → is_Some (py_getitem l i).
Proof.
  intros Hn. unfold py_getitem. rewrite Hn. simpl.
  apply lookup_lt_is_Some. by eapply py_norm_lt.
Qed.

Lemma py_getitem_norm {A} (l : list A) i a :
  py_getitem l i = Some a → is_Some (py_norm (length l) i).
Proof. unfold py_getitem. destruct (py_norm _ _); [eauto | done]. Qed.

Lemma py_setitem_length {A} (l l' : list A) i v :
  py_setitem l i v = Some l' → length l' = length l.
Proof.
  unfold py_setitem. destruct (py_norm _ _); simpl; [|done].
  intros [= <-]. apply length_insert.
Qed.

Lemma py_getitem_setitem {A} (l l' : list A) i v :
  py_setitem l i v = Some l' → py_getitem l' i = Some v.
Proof.
  intros Hset. unfold py_getitem. rewrite (py_setitem_length _ _ _ _ Hset).
  unfold py_setitem in Hset. destruct (py_norm _ _) as [n|] eqn:Hn; simplify_eq/=.
  apply list_lookup_insert_eq. by eapply py_norm_lt.
Qed.

Lemma py_getitem_setitem_ne {A} (l l' : list A) i j v :
  py_setitem l i v = Some l' → 0 <= i → 0 <= j → i ≠ j →
  py_getitem l' j = py_getitem l j.
Proof.
  intros Hset Hi Hj Hne. unfold py_getitem. rewrite (py_setitem_length _ _ _ _ Hset).
  unfold py_setitem in Hset. destruct (py_norm _ i) as [n|] eqn:Hn; simplify_eq/=.
  destruct (py_norm _ j) as [m|] eqn:Hm; simpl; [|done].
  apply list_lookup_insert_ne.
  apply py_norm_nonneg_inv in Hn as [-> _]; [|done].
  apply py_norm_nonneg_inv in Hm as [-> _]; [|done]. lia.
Qed.

Lemma py_setitem_is_Some {A} (l : list A) i a v :
  py_getitem l i = Some a → is_Some (py_setitem l i v).
Proof.
  intros [n Hn]%py_getitem_norm. unfold py_setitem. rewrite Hn. simpl. eauto.
Qed.

Lemma py_getitem_in_range {A} (l : list A) i :
  0 <= i < Z.of_nat (length l) → py_getitem l i = l !! Z.to_nat i.
Proof. intros. unfold py_getitem. by rewrite py_norm_in_range. Qed.

Lemma py_getitem_elem_of {A} (l : list A) i a : py_getitem l i = Some a → a ∈ l.
Proof.
  unfold py_getitem. destruct (py_norm _ _); simpl; [|done].
  apply list_elem_of_lookup_2.
Qed.

Lemma py_setitem_Forall {A} (P : A → Prop) (l l' : list A) i v :
  py_setitem l i v = Some l' → Forall P l → P v → Forall P l'.
Proof.
  unfold py_setitem. destruct (py_norm _ _); simpl; [|done].
  intros [= <-] Hl Hv. by apply Forall_insert.
Qed.

(** ** Reading and writing the grid *)

Lemma get_set_eq c c' y x v :
  GameField.set c y x v = Some c' → GameField.get c' y x = Some v.
Proof.
  unfold GameField.set, GameField.get. intros Hset.
  destruct (py_getitem c y) as [row|] eqn:Hrow; simplify_eq/=.
  destruct (py_setitem row x v) as [row'|] eqn:Hrow'; simplify_eq/=.
  rewrite (py_getitem_setitem _ _ _ _ Hset). simpl.
  by eapply py_getitem_setitem.
Qed.

Lemma get_set_ne c c' y x v y' x' :
  GameField.set c y x v = Some c' →
  0 <= y → 0 <= x → 0 <= y' → 0 <= x' → (y, x) ≠ (y', x') →
  GameField.get c' y' x' = GameField.get c y' x'.
Proof.
  unfold GameField.set, GameField.get. intros Hset Hy Hx Hy' Hx' Hne.
  destruct (py_getitem c y) as [row|] eqn:Hrow; simplify_eq/=.
  destruct (py_setitem row x v) as [row'|] eqn:Hrow'; simplify_eq/=.
  destruct (decide (y = y')) as [<-|Hyy].
  - rewrite (py_getitem_setitem _ _ _ _ Hset), Hrow. simpl.
    eapply py_getitem_setitem_ne; [done..|]. congruence.
  - by rewrite (py_getitem_setitem_ne _ _ _ _ _ Hset).
Qed.

Lemma set_is_Some c y x b v :
  GameField.get c y x = Some b → is_Some (GameField.set c y x v).
Proof.
  unfold GameField.set, GameField.get. intros Hget.
  destruct (py_getitem c y) as [row|] eqn:Hrow; simplify_eq/=.
  destruct (py_setitem_is_Some row x b v Hget) as [row' ->]. simpl.
  by eapply py_setitem_is_Some.
Qed.

Lemma set_shaped h w c c' y x v :
  GameField.set c y x v = Some c' → shaped h w c → shaped h w c'.
Proof.
  unfold GameField.set. intros Hset [Hlen Hrows].
  destruct (py_getitem c y) as [row|] eqn:Hrow; simplify_eq/=.
  destruct (py_setitem row x v) as [row'|] eqn:Hrow'; simplify_eq/=.
  split.
  - by rewrite (py_setitem_length _ _ _ _ Hset).
  - eapply py_setitem_Forall; [done..|].
    rewrite (py_setitem_length _ _ _ _ Hrow').
    eapply Forall_forall in Hrows; [done|]. by eapply py_getitem_elem_of.
Qed.

Lemma get_is_Some h w c y x :
  shaped h w c → 0 <= y < h → 0 <= x < w → is_Some (GameField.get c y x).
Proof.
  intros [Hlen Hrows] Hy Hx. unfold GameField.get.
  destruct (py_getitem_is_Some c y (Z.to_nat y)) as [row Hrow].
  { apply py_norm_in_range. lia. }
  rewrite Hrow. simpl.
  eapply py_getitem_is_Some, py_norm_in_range.
  eapply Forall_forall in Hrows; [|by eapply py_getitem_elem_of]. simpl in Hrows. lia.
Qed.

Lemma py_getitem_0 {A} (a : A) l : py_getitem (a :: l) 0 = Some a.
Proof. rewrite py_getitem_in_range; [done|]. simpl. lia. Qed.

Lemma py_setitem_0 {A} (a v : A) l : py_setitem (a :: l) 0 v = Some (v :: l).
Proof. unfold py_setitem. rewrite py_norm_in_range; [done|]. simpl. lia. Qed.

(** ** The primitives of the monad *)

Lemma bind_eq {A B} (m : M A) (f : A → M B) w :
  bind m f w =
  match m w with
  | (Ret a, w') => f a w'
  | (Raise e, w') => (Raise e, w')
  end.
Proof. done. Qed.

Lemma seq_eq {A B} (m : M A) (k : M B) w :
  (m;; k) w =
  match m w with
  | (Ret a, w') => k w'
  | (Raise e, w') => (Raise e, w')
  end.
Proof. done. Qed.

Lemma cell_eq y x w :
  cell y x w = (of_option (GameField.get (GameField.cells (game_field w)) y x) IndexError, w).
Proof. done. Qed.

Lemma set_cell_eq y x v w :
  set_cell y x v w =
  match GameField.set (GameField.cells (game_field w)) y x v with
  | Some c' => (Ret tt, with_cells c' w)
  | None => (Raise IndexError, w)
  end.
Proof. unfold set_cell. rewrite bind_eq. simpl. rewrite bind_eq. unfold lift. by destruct (GameField.set _ _ _ _). Qed.

Lemma element_eq i w :
  element i w = (of_option (py_getitem (snake_elements w) i) IndexError, w).
Proof. done. Qed.

Lemma set_element_eq i e w :
  set_element i e w =
  match py_setitem (snake_elements w) i e with
  | Some l' => (Ret tt, with_snake_elements l' w)
  | None => (Raise IndexError, w)
  end.
Proof. unfold set_element. rewrite bind_eq. simpl. rewrite bind_eq. unfold lift. by destruct (py_setitem _ _ _). Qed.

Lemma with_cells_id w : with_cells (GameField.cells (game_field w)) w = w.
Proof. by destruct w as [[] ?]. Qed.

Lemma with_snake_elements_id w : with_snake_elements (snake_elements w) w = w.
Proof. by destruct w. Qed.

(** ** Advancing the head *)

(** [_move_right], [_move_left], [_move_up] and [_move_down] in one closed
    form: the destination is read, a marked destination raises with the
    world untouched, a free one receives the head. *)
Lemma _move_in_spec w d h t :
  snake_elements w = h :: t →
  Snake._move_in d w =
  let e := advance d h in
  match GameField.get (GameField.cells (game_field w)) (SnakeElement.y e) (SnakeElement.x e) with
  | None => (Raise IndexError, w)
  | Some true => (Raise (GameOver (bumped d)), w)
  | Some false => (Ret tt, with_snake_elements (e :: t) w)
  end.
Proof.
  intros Hse.
  destruct d;
    unfold Snake._move_in, Snake._move_right, Snake._move_left, Snake._move_up,
      Snake._move_down, Snake.head;
    rewrite bind_eq, element_eq, Hse, py_getitem_0; simpl;
    rewrite bind_eq, cell_eq;
    (destruct (GameField.get _ _ _) as [[]|]; simpl; [done| |done]);
    rewrite bind_eq, element_eq, Hse, py_getitem_0; simpl;
    by rewrite set_element_eq, Hse, py_setitem_0.
Qed.

Lemma _move_head_spec w h t :
  snake_elements w = h :: t →
  Snake._move_head w =
  let e := advance (direction w) h in
  let c := GameField.cells (game_field w) in
  match GameField.get c (SnakeElement.y e) (SnakeElement.x e) with
  | None => (Raise IndexError, w)
  | Some true => (Raise (GameOver (bumped (direction w))), w)
  | Some false =>
      match GameField.set c (SnakeElement.y e) (SnakeElement.x e) true with
      | Some c' => (Ret tt, with_cells c' (with_snake_elements (e :: t) w))
      | None => (Raise IndexError, with_snake_elements (e :: t) w)
      end
  end.
Proof.
  intros Hse. unfold Snake._move_head. rewrite bind_eq. simpl.
  rewrite seq_eq, (_move_in_spec w _ h t Hse). simpl.
  destruct (GameField.get _ _ _) as [[]|]; [done| |done].
  unfold Snake.head. rewrite bind_eq, element_eq. simpl.
  by rewrite set_cell_eq.
Qed.

(** ** Shifting the tail *)

Lemma py_getitem_middle {A} (pre suf : list A) (a : A) :
  py_getitem (pre ++ a :: suf) (Z.of_nat (length pre)) = Some a.
Proof.
  rewrite py_getitem_in_range.
  - rewrite Nat2Z.id. by apply list_lookup_middle.
  - rewrite length_app. simpl. lia.
Qed.

Lemma py_setitem_middle {A} (pre suf : list A) (a v : A) :
  py_setitem (pre ++ a :: suf) (Z.of_nat (length pre)) v = Some (pre ++ v :: suf).
Proof.
  unfold py_setitem. rewrite py_norm_in_range.
  - simpl. rewrite Nat2Z.id. f_equal.
    rewrite insert_app_r_alt by lia. by rewrite Nat.sub_diag.
  - rewrite length_app. simpl. lia.
Qed.

Lemma _move_tail_body_eq pre e suf p w :
  snake_elements w = pre ++ e :: suf →
  Snake._move_tail_body (Z.of_nat (length pre)) p w =
  match GameField.set (GameField.cells (game_field w)) (SnakeElement.y p) (SnakeElement.x p) true with
  | Some c1 => (Ret e, with_cells c1 (with_snake_elements (pre ++ p :: suf) w))
  | None => (Raise IndexError, with_snake_elements (pre ++ p :: suf) w)
  end.
Proof.
  intros Hse. unfold Snake._move_tail_body.
  rewrite bind_eq, element_eq, Hse, py_getitem_middle. simpl.
  rewrite seq_eq, set_element_eq, Hse, py_setitem_middle.
  rewrite seq_eq, set_cell_eq. simpl.
  by destruct (GameField.set _ _ _ _).
Qed.

(** The loop of [_move_tail] from index [length pre] on: every segment takes
    the place of the one before it, whose cell is marked again; what is
    left in [prev] is the last segment. *)
Lemma _move_tail_loop suf : ∀ pre prev init lst w,
  snake_elements w = pre ++ suf →
  prev :: suf = init ++ [lst] →
  match set_all (GameField.cells (game_field w)) (pos <$> init) true with
  | Some c' =>
      for_fold (seqZ (Z.of_nat (length pre)) (Z.of_nat (length suf))) prev Snake._move_tail_body w
      = (Ret lst, with_cells c' (with_snake_elements (pre ++ init) w))
  | None =>
      ∃ w', for_fold (seqZ (Z.of_nat (length pre)) (Z.of_nat (length suf))) prev
              Snake._move_tail_body w = (Raise IndexError, w')
  end.
Proof.
  induction suf as [|e suf IH]; intros pre prev init lst w Hse Hsplit.
  - destruct init as [|? [|? ?]]; simplify_eq/=.
    rewrite app_nil_r in *. rewrite <- Hse.
    unfold mret, M_ret. by rewrite with_snake_elements_id, with_cells_id.
  - destruct init as [|p init]; [by destruct suf|]. simplify_eq/=.
    rewrite seqZ_cons by lia.
    replace (Z.succ (Z.of_nat (length pre))) with (Z.of_nat (length (pre ++ [p])))
      by (rewrite length_app; simpl; lia).
    replace (Z.pred (Z.of_nat (S (length suf)))) with (Z.of_nat (length suf)) by lia.
    cbn [for_fold]. rewrite bind_eq, (_move_tail_body_eq _ _ _ _ _ Hse).
    destruct (GameField.set _ _ _ _) as [c1|] eqn:Hc1; simpl; [|by eauto].
    specialize (IH (pre ++ [p]) e init lst
      (with_cells c1 (with_snake_elements (pre ++ p :: suf) w))).
    simpl in IH. rewrite <- app_assoc in IH. specialize (IH eq_refl H0).
    destruct (set_all c1 (pos <$> init) true) as [c'|]; [|done].
    rewrite IH. f_equal. rewrite <- app_assoc. by destruct w.
Qed.

(** [_move_tail] in closed form, for a snake whose segments are [init]
    followed by the last one, [lst]: the head stays, the others shift by
    one, the cells of [init] are marked again and the cell of [lst] is
    unmarked. *)
Lemma _move_tail_spec w e0 rest init lst :
  snake_elements w = e0 :: rest →
  e0 :: rest = init ++ [lst] →
  match set_all (GameField.cells (game_field w)) (pos <$> init) true
        ≫= λ c1, GameField.set c1 (SnakeElement.y lst) (SnakeElement.x lst) false with
  | Some c2 => Snake._move_tail w = (Ret tt, with_cells c2 (with_snake_elements (e0 :: init) w))
  | None => ∃ w', Snake._move_tail w = (Raise IndexError, w')
  end.
Proof.
  intros Hse Hsplit. unfold Snake._move_tail.
  rewrite bind_eq, element_eq, Hse, py_getitem_0. simpl.
  rewrite bind_eq. simpl. rewrite bind_eq, Hse. unfold range.
  replace (Z.of_nat (length (e0 :: rest)) - 1) with (Z.of_nat (length rest)) by (simpl; lia).
  pose proof (_move_tail_loop rest [e0] e0 init lst w Hse Hsplit) as Hloop.
  change (Z.of_nat (length [e0])) with 1 in Hloop.
  destruct (set_all _ _ _) as [c1|]; simpl.
  - rewrite Hloop, set_cell_eq. simpl.
    destruct (GameField.set c1 _ _ _) as [c2|]; [|by eauto].
    by destruct w.
  - destruct Hloop as [w' ->]. by eauto.
Qed.

Lemma _move_tail_empty w :
  snake_elements w = [] → Snake._move_tail w = (Raise IndexError, w).
Proof.
  intros Hse. unfold Snake._move_tail. by rewrite bind_eq, element_eq, Hse.
Qed.

(** Every non-empty list is some [init] followed by a last element. *)
Lemma split_last {A} (a : A) (l : list A) : ∃ init lst, a :: l = init ++ [lst].
Proof.
  revert a. induction l as [|b l IH]; intros a.
  - by exists [], a.
  - destruct (IH b) as (init & lst & ->). by exists (a :: init), lst.
Qed.

(** What a returning [_move_tail] leaves: the same head, the same number of
    segments, and nothing changed but segments and cells. *)
Lemma _move_tail_Ret w w1 :
  Snake._move_tail w = (Ret tt, w1) →
  ∃ e0 init lst c2,
    snake_elements w = init ++ [lst]
    ∧ head (snake_elements w) = Some e0
    ∧ w1 = with_cells c2 (with_snake_elements (e0 :: init) w).
Proof.
  intros Hmt. destruct (snake_elements w) as [|e0 rest] eqn:Hse.
  { by rewrite _move_tail_empty in Hmt. }
  destruct (split_last e0 rest) as (init & lst & Hsplit).
  pose proof (_move_tail_spec w e0 rest init lst Hse Hsplit) as Hspec.
  destruct (_ ≫= _) as [c2|].
  - rewrite Hspec in Hmt. simplify_eq. by exists e0, init, lst, c2.
  - destruct Hspec as [w' Hw']. congruence.
Qed.

(** ** One move *)

(** What a returning [move] leaves: the head one cell further in the
    heading, the other segments shifted by one, nothing changed but
    segments and cells. *)
Lemma move_Ret w w1 :
  Snake.move w = (Ret tt, w1) →
  ∃ e0 init lst c,
    snake_elements w = init ++ [lst]
    ∧ head (snake_elements w) = Some e0
    ∧ w1 = with_cells c (with_snake_elements (advance (direction w) e0 :: init) w).
Proof.
  unfold Snake.move. rewrite seq_eq.
  destruct (Snake._move_tail w) as [[[]|e] wt] eqn:Hmt; [|done].
  apply _move_tail_Ret in Hmt as (e0 & init & lst & c2 & Hse & Hhd & ->).
  rewrite (_move_head_spec _ e0 init) by done. simpl.
  destruct (GameField.get _ _ _) as [[]|]; [done| |done].
  destruct (GameField.set _ _ _ _) as [c'|]; [|done].
  intros [= <-]. exists e0, init, lst, c'. split_and!; [done..|]. by destruct w.
Qed.

Lemma eats_inv w :
  eats w = true →
  ∃ w1 m ms h t,
    Snake.move w = (Ret tt, w1) ∧ mice w1 = m :: ms ∧ snake_elements w1 = h :: t
    ∧ Mouse.intersect m h = true.
Proof.
  unfold eats. destruct (Snake.move w) as [[[]|e] w1] eqn:Hmove; [|done].
  destruct (mice w1) as [|m ms] eqn:Hmice; [done|].
  destruct (snake_elements w1) as [|h t] eqn:Hse; [done|].
  intros. by exists w1, m, ms, h, t.
Qed.

(** ** Growing *)

Lemma grow_eq w h t :
  snake_elements w = h :: t →
  Snake.grow w = Snake._move_head (with_snake_elements (h :: h :: t) w).
Proof.
  intros Hse. unfold Snake.grow, Snake.head.
  rewrite bind_eq, element_eq, Hse, py_getitem_0. simpl.
  rewrite seq_eq. unfold modify. rewrite Hse. by destruct h.
Qed.

(** ** One tick *)

(** The tick in which the snake eats, in closed form. *)
Lemma action_eats w r w1 m ms h t :
  Snake.move w = (Ret tt, w1) → mice w1 = m :: ms → snake_elements w1 = h :: t →
  Mouse.intersect m h = true →
  Snake.action r w =
  match Snake._move_head (with_snake_elements (h :: h :: t) w1) with
  | (Ret _, w2) =>
      match GameField.get_free_cell (game_field w2) r with
      | Ret c =>
          (Ret tt, with_direction_changed false
                     (with_mice [Mouse.mk c.1 c.2] (with_score (score w2 + 1) w2)))
      | Raise e => (Raise e, with_mice [] (with_score (score w2 + 1) w2))
      end
  | (Raise e, w2) => (Raise e, w2)
  end.
Proof.
  intros Hmove Hmice Hse Hint. unfold Snake.action.
  rewrite seq_eq, Hmove. unfold Snake.get_game_object_Mouse.
  rewrite bind_eq, bind_eq. simpl. rewrite Hmice. simpl.
  unfold Snake.head. rewrite bind_eq, element_eq, Hse, py_getitem_0. simpl.
  rewrite seq_eq, Hint, seq_eq, (grow_eq w1 h t Hse).
  destruct (Snake._move_head _) as [[[]|e] w2]; [|done].
  rewrite seq_eq. simpl. rewrite seq_eq. simpl. rewrite bind_eq. simpl.
  rewrite bind_eq. unfold lift.
  by destruct (GameField.get_free_cell _ _).
Qed.

(** The tick in which the snake does not eat. *)
Lemma action_no_eat w r w1 m ms h t :
  Snake.move w = (Ret tt, w1) → mice w1 = m :: ms → snake_elements w1 = h :: t →
  Mouse.intersect m h = false →
  Snake.action r w = (Ret tt, with_direction_changed false w1).
Proof.
  intros Hmove Hmice Hse Hint. unfold Snake.action.
  rewrite seq_eq, Hmove. unfold Snake.get_game_object_Mouse.
  rewrite bind_eq, bind_eq. simpl. rewrite Hmice. simpl.
  unfold Snake.head. rewrite bind_eq, element_eq, Hse, py_getitem_0. simpl.
  by rewrite seq_eq, Hint.
Qed.

(** ** Free cells *)

Lemma concat_mapM_elem {A B} (f : A → option (list B)) (l : list A) (k : list (list B)) :
  mapM f l = Some k →
  ∀ b, b ∈ concat k ↔ ∃ a bs, a ∈ l ∧ f a = Some bs ∧ b ∈ bs.
Proof.
  rewrite mapM_Some. induction 1 as [|a bs l k Hf _ IH]; intros b; simpl.
  - split; [by intros ?%elem_of_nil | by intros (? & ? & ?%elem_of_nil & _)].
  - rewrite elem_of_app, IH. split.
    + intros [Hb | (a' & bs' & ? & ? & ?)].
      * exists a, bs. by rewrite elem_of_cons; auto.
      * exists a', bs'. by rewrite elem_of_cons; auto.
    + intros (a' & bs' & [->|?]%elem_of_cons & Hf' & Hb).
      * left. congruence.
      * right. eauto.
Qed.

Lemma mapM_Some_elem {A B} (f : A → option B) (l : list A) (k : list B) a :
  mapM f l = Some k → a ∈ l → ∃ b, f a = Some b ∧ b ∈ k.
Proof.
  rewrite mapM_Some. induction 1 as [|a' b l k Hf _ IH].
  - by intros ?%elem_of_nil.
  - intros [->|Ha]%elem_of_cons.
    + exists b. by rewrite elem_of_cons; auto.
    + destruct (IH Ha) as (b' & ? & ?). exists b'. by rewrite elem_of_cons; auto.
Qed.

Lemma free_cells_elem gf fc p :
  GameField.free_cells gf = Some fc →
  p ∈ fc ↔ (1 <= p.1 < GameField.height gf - 2 ∧ 1 <= p.2 < GameField.width gf - 2)
           ∧ free (GameField.cells gf) p.
Proof.
  unfold GameField.free_cells. intros (k & Hk & ->)%fmap_Some.
  rewrite (concat_mapM_elem _ _ _ Hk). unfold range, free. split.
  - intros (y & bs & Hy & (k' & Hk' & ->)%fmap_Some & Hp).
    apply (concat_mapM_elem _ _ _ Hk') in Hp as (x & cs & Hx & Hscan & Hp).
    apply elem_of_seqZ in Hy, Hx. unfold GameField.scan in Hscan.
    destruct (GameField.get _ y x) as [[]|] eqn:Hget; simplify_eq/=.
    + by apply elem_of_nil in Hp.
    + apply list_elem_of_singleton in Hp as ->. simpl. split; [lia|done].
  - destruct p as [y x]. simpl. intros [[Hy Hx] Hfree].
    assert (Hy' : y ∈ seqZ 1 (GameField.height gf - 2 - 1)) by (apply elem_of_seqZ; lia).
    assert (Hx' : x ∈ seqZ 1 (GameField.width gf - 2 - 1)) by (apply elem_of_seqZ; lia).
    destruct (mapM_Some_elem _ _ _ _ Hk Hy') as (bs & Hbs & _).
    exists y, bs. split_and!; [done..|].
    apply fmap_Some in Hbs as (k' & Hk' & ->).
    rewrite (concat_mapM_elem _ _ _ Hk').
    exists x, [(y, x)]. split_and!; [done| |by apply list_elem_of_singleton].
    unfold GameField.scan. by rewrite Hfree.
Qed.

Lemma get_free_cell_Ret gf r p :
  GameField.get_free_cell gf r = Ret p →
  ∃ fc, GameField.free_cells gf = Some fc ∧ p ∈ fc.
Proof.
  unfold GameField.get_free_cell, GameField.choice.
  destruct (GameField.free_cells gf) as [[|q fc]|]; [done| |done].
  destruct (_ !! _) as [p'|] eqn:Hp; simpl; [|done].
  intros [= ->]. exists (q :: fc). split; [done|]. by eapply list_elem_of_lookup_2.
Qed.

Lemma get_free_cell_win gf r :
  GameField.get_free_cell gf r = Raise (GameOver "win") ↔ GameField.free_cells gf = Some [].
Proof.
  unfold GameField.get_free_cell, GameField.choice.
  destruct (GameField.free_cells gf) as [[|q fc]|]; [done| |done].
  destruct (_ !! _) as [p'|] eqn:Hp; simpl; done.
Qed.


(** ** Marking a list of cells *)

Lemma set_all_shaped h w ps : ∀ c c' v,
  set_all c ps v = Some c' → shaped h w c → shaped h w c'.
Proof.
  induction ps as [|p ps IH]; intros c c' v Hset Hc; simplify_eq/=; [done|].
  destruct (GameField.set c p.1 p.2 v) as [c1|] eqn:Hc1; simplify_eq/=.
  eapply IH; [done|]. by eapply set_shaped.
Qed.

Lemma set_in_grid_is_Some h w c p v :
  shaped h w c → 0 <= p.1 < h → 0 <= p.2 < w → is_Some (GameField.set c p.1 p.2 v).
Proof.
  intros Hc Hy Hx. destruct (get_is_Some h w c p.1 p.2 Hc Hy Hx) as [b Hb].
  by eapply set_is_Some.
Qed.

Lemma set_all_is_Some h w ps : ∀ c v,
  shaped h w c → Forall (λ p, 0 <= p.1 < h ∧ 0 <= p.2 < w) ps →
  is_Some (set_all c ps v).
Proof.
  induction ps as [|p ps IH]; intros c v Hc Hps; simpl; [by eauto|].
  apply Forall_cons in Hps as [[Hy Hx] Hps].
  destruct (set_in_grid_is_Some h w c p v Hc Hy Hx) as [c1 Hc1]. rewrite Hc1. simpl.
  apply IH; [|done]. by eapply set_shaped.
Qed.

Lemma set_all_get ps : ∀ c c' v p,
  set_all c ps v = Some c' →
  Forall (λ q, 0 <= q.1 ∧ 0 <= q.2) ps → 0 <= p.1 → 0 <= p.2 →
  GameField.get c' p.1 p.2 = if decide (p ∈ ps) then Some v else GameField.get c p.1 p.2.
Proof.
  induction ps as [|q ps IH]; intros c c' v p Hset Hps Hy Hx.
  { simpl in Hset. injection Hset as ->. case_decide as Hin; [|done].
    by apply elem_of_nil in Hin. }
  cbn [set_all] in Hset.
  apply Forall_cons in Hps as [[Hqy Hqx] Hps].
  destruct (GameField.set c q.1 q.2 v) as [c1|] eqn:Hc1; simplify_eq/=.
  rewrite (IH c1 c' v p Hset Hps Hy Hx).
  destruct (decide (p ∈ ps)) as [Hin|Hnin].
  - rewrite decide_True; [done|]. by apply elem_of_cons; auto.
  - destruct (decide (p = q)) as [->|Hne].
    + rewrite decide_True by (apply elem_of_cons; auto). by eapply get_set_eq.
    + rewrite decide_False by (rewrite elem_of_cons; tauto).
      eapply get_set_ne; [done..|]. destruct p, q; simpl in *. congruence.
Qed.

(** ** Loops that mark cells *)

Lemma for_each_set_cell2 {A} (fy fx gy gx : A → Z) v (l : list A) : ∀ w,
  match set_all (GameField.cells (game_field w))
          (flat_map (λ a, [(fy a, fx a); (gy a, gx a)]) l) v with
  | Some c' =>
      for_each l (λ a, set_cell (fy a) (fx a) v;; set_cell (gy a) (gx a) v) w
      = (Ret tt, with_cells c' w)
  | None =>
      (for_each l (λ a, set_cell (fy a) (fx a) v;; set_cell (gy a) (gx a) v) w).1
      = Raise IndexError
  end.
Proof.
  unfold for_each. induction l as [|a l IH]; intros w; simpl.
  { unfold mret, M_ret. by rewrite with_cells_id. }
  rewrite bind_eq, seq_eq, set_cell_eq.
  destruct (GameField.set _ (fy a) _ _) as [c1|]; simpl; [|done].
  rewrite set_cell_eq. simpl.
  destruct (GameField.set c1 (gy a) _ _) as [c2|]; simpl; [|done].
  specialize (IH (with_cells c2 (with_cells c1 w))). simpl in IH.
  destruct (set_all c2 _ v) as [c'|]; [|done].
  rewrite IH. by destruct w.
Qed.

Lemma set_all_app ps qs c v :
  set_all c (ps ++ qs) v = set_all c ps v ≫= λ c1, set_all c1 qs v.
Proof.
  revert c. induction ps as [|p ps IH]; intros c; simpl; [done|].
  destruct (GameField.set c _ _ v); simpl; [apply IH|done].
Qed.

Lemma Border_init_spec height width w :
  match set_all (GameField.cells (game_field w)) (border_cells height width) true with
  | Some c' => Border.init height width w = (Ret tt, with_cells c' w)
  | None => (Border.init height width w).1 = Raise IndexError
  end.
Proof.
  unfold Border.init, border_cells. rewrite set_all_app, seq_eq.
  pose proof (for_each_set_cell2 (λ _, 0) (λ x, x) (λ _, height - 1) (λ x, x) true
                (range 0 width) w) as H1.
  simpl in H1.
  destruct (set_all _ (flat_map _ (range 0 width)) true) as [c1|]; simpl.
  - rewrite H1.
    pose proof (for_each_set_cell2 (λ y, y) (λ _, 0) (λ y, y) (λ _, width - 1) true
                  (range 0 height) (with_cells c1 w)) as H2.
    simpl in H2.
    destruct (set_all c1 _ true) as [c2|].
    + rewrite H2. by destruct w.
    + done.
  - by destruct (for_each _ _ w) as [[] ?]; simplify_eq/=.
Qed.

Lemma elem_of_border_cells height width p :
  p ∈ border_cells height width ↔
  (0 <= p.2 < width ∧ (p.1 = 0 ∨ p.1 = height - 1))
  ∨ (0 <= p.1 < height ∧ (p.2 = 0 ∨ p.2 = width - 1)).
Proof.
  unfold border_cells, range. rewrite elem_of_app, !list_elem_of_In, !in_flat_map.
  destruct p as [y x]. simpl. split.
  - intros [(a & Ha & Hp) | (a & Ha & Hp)];
      apply list_elem_of_In, elem_of_seqZ in Ha; simpl in Hp;
      destruct Hp as [?|[?|[]]]; simplify_eq; [left|left|right|right]; lia.
  - intros [[Hx [->| ->]] | [Hy [->| ->]]]; [left; exists x|left; exists x|right; exists y|right; exists y];
      (split; [apply list_elem_of_In, elem_of_seqZ; lia
              |simpl; auto]).
Qed.


(** ** The invariant *)

Lemma interior_in_grid gf p : interior gf p → in_grid gf p.
Proof. unfold interior, in_grid. lia. Qed.

Lemma interior_not_border gf p : interior gf p → ¬ on_border gf p.
Proof. unfold interior, on_border. lia. Qed.

Lemma in_grid_not_border gf p : in_grid gf p → ¬ on_border gf p → interior gf p.
Proof. unfold interior, on_border, in_grid. lia. Qed.

Lemma advance_in_grid gf d h : interior gf (pos h) → in_grid gf (pos (advance d h)).
Proof. unfold interior, in_grid. destruct d; simpl; lia. Qed.

Lemma pos_inj e1 e2 : pos e1 = pos e2 → e1 = e2.
Proof. destruct e1, e2. unfold pos. simpl. congruence. Qed.

(** The invariant only reads the field and the segments. *)
Lemma Inv_frame w w' :
  game_field w' = game_field w → snake_elements w' = snake_elements w → Inv w → Inv w'.
Proof.
  intros Hgf Hse [? ? ? ? Hocc].
  split; unfold occupancy, on_snake in *; rewrite ?Hgf, ?Hse; done.
Qed.

(** Advancing the head re-establishes the invariant. *)
Lemma _move_head_Inv w h t w' :
  HeadInv w h t → Snake._move_head w = (Ret tt, w') →
  Inv w' ∧ ∃ c', w' = with_cells c' (with_snake_elements (advance (direction w) h :: t) w).
Proof.
  intros [Hshape Hse Hh Hnd Hint Hocc].
  rewrite (_move_head_spec w h t Hse). simpl.
  set (e := advance (direction w) h).
  pose proof (advance_in_grid _ (direction w) _ Hh) as Hgrid. fold e in Hgrid.
  destruct (GameField.get _ _ _) as [[]|] eqn:Hget; [done| |done].
  destruct (GameField.set _ _ _ _) as [c'|] eqn:Hset; [|done].
  intros [= <-]. split; [|by eauto].
  assert (Hfree : ¬ marked (GameField.cells (game_field w)) (pos e)).
  { unfold marked. simpl. congruence. }
  rewrite (Hocc _ Hgrid) in Hfree.
  split; simpl.
  - unfold well_shaped. simpl. by eapply set_shaped.
  - done.
  - apply NoDup_cons. split; [tauto|done].
  - apply Forall_cons. split; [|done].
    apply in_grid_not_border; [done|tauto].
  - intros p Hp. unfold marked, on_snake. simpl.
    change (on_border _ p) with (on_border (game_field w) p).
    rewrite elem_of_cons.
    destruct (decide (p = pos e)) as [->|Hne].
    + simpl. rewrite (get_set_eq _ _ _ _ _ Hset). tauto.
    + rewrite (get_set_ne _ _ _ _ _ p.1 p.2 Hset).
      * specialize (Hocc p Hp). unfold marked in Hocc. tauto.
      * destruct Hgrid. simpl in *. lia.
      * destruct Hgrid. simpl in *. lia.
      * destruct Hp. lia.
      * destruct Hp. lia.
      * destruct p. unfold pos in Hne. simpl. congruence.
Qed.

(** Shifting the tail of a snake that satisfies the invariant returns, and
    leaves the grid marked on the border and on the segments behind the
    head. *)
Lemma _move_tail_Inv w :
  Inv w →
  ∃ e0 init lst c2,
    snake_elements w = init ++ [lst]
    ∧ head (snake_elements w) = Some e0
    ∧ Snake._move_tail w = (Ret tt, with_cells c2 (with_snake_elements (e0 :: init) w))
    ∧ free c2 (pos lst)
    ∧ HeadInv (with_cells c2 (with_snake_elements (e0 :: init) w)) e0 init.
Proof.
  intros [Hshape Hne Hnd Hint Hocc].
  destruct (snake_elements w) as [|e0 rest] eqn:Hse; [done|].
  destruct (split_last e0 rest) as (init & lst & Hsplit).
  rewrite Hsplit in Hnd, Hint.
  rewrite fmap_app in Hnd. apply NoDup_app in Hnd as (Hnd & Hlst & _).
  apply Forall_app in Hint as [Hint Hlint]. rewrite Forall_singleton in Hlint.
  assert (Hrange : Forall (λ p, 0 <= p.1 < GameField.height (game_field w)
                                ∧ 0 <= p.2 < GameField.width (game_field w)) (pos <$> init)).
  { apply Forall_fmap. eapply Forall_impl; [exact Hint|]. intros e He. exact (interior_in_grid _ _ He). }
  destruct (set_all_is_Some _ _ _ (GameField.cells (game_field w)) true Hshape Hrange)
    as [c1 Hc1].
  pose proof (set_all_shaped _ _ _ _ _ _ Hc1 Hshape) as Hshape1.
  pose proof (interior_in_grid _ _ Hlint) as [Hly Hlx].
  destruct (set_in_grid_is_Some _ _ c1 (pos lst) false Hshape1 Hly Hlx) as [c2 Hc2].
  pose proof (_move_tail_spec w e0 rest init lst Hse Hsplit) as Hspec.
  rewrite Hc1 in Hspec. simpl in Hspec, Hc2, Hly, Hlx. rewrite Hc2 in Hspec.
  exists e0, init, lst, c2. split_and!; [done..| |].
  { unfold free. by eapply get_set_eq. }
  assert (He0 : interior (game_field w) (pos e0)).
  { destruct init; simplify_eq/=; [done|]. by apply Forall_cons in Hint as [? _]. }
  split; simpl; [|done|done|done|done|].
  { unfold well_shaped. simpl. by eapply set_shaped. }
  intros p Hp. unfold marked. simpl.
  change (on_border _ p) with (on_border (game_field w) p).
  change (in_grid _ p) with (in_grid (game_field w) p) in Hp.
  destruct (decide (p = pos lst)) as [->|Hpl].
  - simpl. rewrite (get_set_eq _ _ _ _ _ Hc2). split; [done|].
    intros [Hb|Hin]; [by apply interior_not_border in Hlint|].
    exfalso. eapply Hlst; [exact Hin|]. apply list_elem_of_singleton. done.
  - rewrite (get_set_ne _ _ _ _ _ p.1 p.2 Hc2);
      [|simpl; lia|simpl; lia|destruct Hp; lia|destruct Hp; lia
       |destruct p; unfold pos in Hpl; simpl; congruence].
    rewrite (set_all_get _ _ _ _ p Hc1);
      [|eapply Forall_impl; [exact Hrange|]; simpl; lia|destruct Hp; lia|destruct Hp; lia].
    case_decide as Hin; [tauto|].
    specialize (Hocc p Hp). unfold marked, on_snake in Hocc.
    rewrite Hse, Hsplit, fmap_app, elem_of_app in Hocc. simpl in Hocc.
    rewrite list_elem_of_singleton in Hocc. tauto.
Qed.

(** [move] keeps the invariant. *)
Lemma move_Inv w w1 : Inv w → Snake.move w = (Ret tt, w1) → Inv w1.
Proof.
  intros HInv. destruct (_move_tail_Inv w HInv) as (e0 & init & lst & c2 & _ & _ & Hmt & _ & Hhinv).
  unfold Snake.move. rewrite seq_eq, Hmt. intros Hmh.
  by apply (_move_head_Inv _ _ _ _ Hhinv) in Hmh as [? _].
Qed.

(** [grow] keeps the invariant. *)
Lemma grow_Inv w h t w' :
  Inv w → snake_elements w = h :: t →
  Snake._move_head (with_snake_elements (h :: h :: t) w) = (Ret tt, w') → Inv w'.
Proof.
  intros [? ? Hnd Hint Hocc] Hse Hmh.
  apply _move_head_Inv with (h := h) (t := h :: t) in Hmh as [HInv' _]; [done|].
  rewrite Hse in *. split; simpl; try done.
  - by apply Forall_cons in Hint as [? _].
  - intros p Hp. specialize (Hocc p Hp). unfold marked, on_snake in *.
    rewrite Hse in Hocc. by destruct w as [[] ?].
Qed.

(** A tick keeps the invariant. *)
Lemma action_Inv w r w' : Inv w → Snake.action r w = (Ret tt, w') → Inv w'.
Proof.
  intros HInv. unfold Snake.action. rewrite seq_eq.
  destruct (Snake.move w) as [[[]|e] w1] eqn:Hmove; [|done].
  pose proof (move_Inv _ _ HInv Hmove) as HInv1.
  unfold Snake.get_game_object_Mouse. rewrite bind_eq, bind_eq. simpl.
  destruct (mice w1 !! 0%nat) as [m|]; simpl; [|done].
  unfold Snake.head. rewrite bind_eq, element_eq.
  destruct (snake_elements w1) as [|h t] eqn:Hse; [done|].
  rewrite py_getitem_0. simpl. rewrite seq_eq.
  destruct (Mouse.intersect m h).
  - rewrite seq_eq, (grow_eq w1 h t Hse).
    destruct (Snake._move_head _) as [[[]|e] w2] eqn:Hmh; [|done].
    pose proof (grow_Inv _ _ _ _ HInv1 Hse Hmh) as HInv2.
    rewrite seq_eq. simpl. rewrite seq_eq. simpl. rewrite bind_eq. simpl.
    rewrite bind_eq. unfold lift.
    destruct (GameField.get_free_cell _ _); [|done].
    simpl. intros [= <-]. by eapply Inv_frame; [| |exact HInv2].
  - simpl. intros [= <-]. by eapply Inv_frame; [| |exact HInv1].
Qed.

(** ** The initial state *)

Lemma get_init width height y x :
  0 <= y < height → 0 <= x < width →
  GameField.get (GameField.cells (GameField.init width height)) y x = Some false.
Proof.
  intros Hy Hx. unfold GameField.get. simpl.
  rewrite py_getitem_in_range by (rewrite length_replicate; lia).
  rewrite lookup_replicate_2 by lia. simpl.
  rewrite py_getitem_in_range by (rewrite length_replicate; lia).
  apply lookup_replicate_2. lia.
Qed.

Lemma init_well_shaped width height :
  0 <= width → 0 <= height → well_shaped (GameField.init width height).
Proof.
  intros Hw Hh. split; simpl.
  - rewrite length_replicate. lia.
  - apply Forall_replicate. rewrite length_replicate. lia.
Qed.

(** A cell returned by [get_free_cell] lies in the rows and columns it
    scans and is free. *)
Lemma get_free_cell_scanned gf r p :
  GameField.get_free_cell gf r = Ret p →
  (1 <= p.1 < GameField.height gf - 2 ∧ 1 <= p.2 < GameField.width gf - 2)
  ∧ free (GameField.cells gf) p.
Proof.
  intros (fc & Hfc & Hp)%get_free_cell_Ret. by apply (free_cells_elem _ _ _ Hfc).
Qed.

(** [main] establishes the invariant. *)
Lemma main_Inv width height r0 r1 w : main width height r0 r1 = (Ret tt, w) → Inv w.
Proof.
  unfold main. rewrite seq_eq.
  set (w0 := mkWorld (GameField.init width height) RIGHT false [] [] 0).
  pose proof (Border_init_spec height width w0) as Hb.
  destruct (set_all _ (border_cells height width) true) as [c1|] eqn:Hc1.
  2:{ destruct (Border.init height width w0) as [[[]|e] ?]; simplify_eq/=. done. }
  rewrite Hb.
  unfold Snake.init, set_cell, bind, mbind, M_bind, modify, gets, lift. simpl.
  destruct (GameField.get_free_cell _ r0) as [p|] eqn:Hp; [|done].
  apply get_free_cell_scanned in Hp as [[Hpy Hpx] Hpfree]. simpl in Hpy, Hpx, Hpfree.
  simpl.
  destruct (GameField.set c1 _ _ _) as [c2|] eqn:Hc2; [|done].
  simpl.
  destruct (GameField.get_free_cell _ r1) as [q|]; [|done].
  simpl. intros [= <-].
  assert (Hshape0 : shaped height width (GameField.cells (GameField.init width height))).
  { apply init_well_shaped; lia. }
  pose proof (set_all_shaped _ _ _ _ _ _ Hc1 Hshape0) as Hshape1.
  split; simpl.
  - unfold well_shaped. simpl. by eapply set_shaped.
  - done.
  - apply NoDup_singleton.
  - apply Forall_singleton. unfold interior, pos. simpl. lia.
  - intros p' [Hy' Hx']. simpl in Hy', Hx'.
    unfold marked, on_snake, on_border, in_grid. simpl.
    rewrite list_elem_of_singleton. unfold pos. simpl.
    destruct (decide (p' = p)) as [->|Hne].
    + rewrite (get_set_eq _ _ _ _ _ Hc2). destruct p. simpl. tauto.
    + rewrite (get_set_ne _ _ _ _ _ p'.1 p'.2 Hc2);
        [|lia|lia|lia|lia|destruct p, p'; simpl; congruence].
      rewrite (set_all_get _ _ _ _ p' Hc1); [|..|lia|lia].
      * change (game_field w0) with (GameField.init width height).
        rewrite get_init by done.
        case_decide as Hin; rewrite elem_of_border_cells in Hin; split.
        -- intros _. left. split; [done|]. lia.
        -- done.
        -- done.
        -- intros [[_ Hb']|Hp']; [exfalso; apply Hin; lia|].
           destruct p, p'. simpl in *. congruence.
      * apply Forall_forall. intros b Hbin. apply elem_of_border_cells in Hbin. lia.
Qed.

(** ** Reachable states *)

Lemma change_direction_frame new w :
  ∃ d b, Snake.change_direction new w = (Ret tt, with_direction_changed b (with_direction d w)).
Proof.
  destruct w as [gf d [] se mi sc]; destruct d, new; by eexists _, _.
Qed.

Lemma do_step_Inv kl kr ku kd s w w' :
  Inv w → do_step kl kr ku kd s w = (Ret tt, w') → Inv w'.
Proof.
  intros HInv. destruct s as [event|r]; simpl.
  - unfold event_received. destruct (Direction_of _ _ _ _ _) as [d|].
    + destruct (change_direction_frame d w) as (d' & b & ->).
      intros [= <-]. by eapply Inv_frame; [| |exact HInv].
    + by intros [= <-].
  - by apply action_Inv.
Qed.

Lemma run_Inv kl kr ku kd steps : ∀ w w',
  Inv w → run kl kr ku kd steps w = (Ret tt, w') → Inv w'.
Proof.
  unfold run, for_each.
  induction steps as [|s steps IH]; intros w w' HInv; simpl.
  - by intros [= <-].
  - rewrite bind_eq. destruct (do_step _ _ _ _ s w) as [[[]|e] w1] eqn:Hs; [|done].
    apply IH. by eapply do_step_Inv.
Qed.

(** Every state the game reaches satisfies the invariant. *)
Lemma play_Inv kl kr ku kd width height r0 r1 steps w :
  play kl kr ku kd width height r0 r1 steps = (Ret tt, w) → Inv w.
Proof.
  unfold play. destruct (main width height r0 r1) as [[[]|e] w0] eqn:Hmain; [|done].
  apply run_Inv. by eapply main_Inv.
Qed.

(** On a well-shaped field the scan reads no cell out of range. *)
Lemma free_cells_is_Some gf : well_shaped gf → is_Some (GameField.free_cells gf).
Proof.
  intros Hshape. unfold GameField.free_cells.
  apply fmap_is_Some, mapM_is_Some, Forall_forall. intros y Hy. simpl.
  apply fmap_is_Some, mapM_is_Some, Forall_forall. intros x Hx. simpl.
  unfold range in Hy, Hx. apply elem_of_seqZ in Hy, Hx.
  unfold GameField.scan.
  destruct (get_is_Some _ _ _ y x Hshape) as [b ->]; [lia..|]. by eauto.
Qed.

(** What [get_free_cell] does decide on: it raises the 'win' signal exactly
    when no cell of rows [1 .. height - 3] and columns [1 .. width - 3] is
    free. *)
Lemma get_free_cell_win_iff gf r :
  well_shaped gf →
  GameField.get_free_cell gf r = Raise (GameOver "win") ↔
  ∀ p, 1 <= p.1 < GameField.height gf - 2 → 1 <= p.2 < GameField.width gf - 2 →
       ¬ free (GameField.cells gf) p.
Proof.
  intros [fc Hfc]%free_cells_is_Some. rewrite get_free_cell_win, Hfc. split.
  - intros [= ->] p Hy Hx Hfree.
    eapply not_elem_of_nil, (free_cells_elem _ _ p Hfc). eauto.
  - intros Hnone. f_equal. destruct fc as [|p fc]; [done|].
    assert (Hp : p ∈ p :: fc) by (apply elem_of_cons; auto).
    apply (free_cells_elem _ _ p Hfc) in Hp as [[Hy Hx] Hfree].
    by destruct (Hnone p Hy Hx).
Qed.

(** * The claims *)

(** ** Headings *)

Lemma opposite_same_axis d : same_axis d (opposite d) = true.
Proof. by destruct d. Qed.

Lemma same_axis_refl d : same_axis d d = true.
Proof. by destruct d. Qed.

(** What one call of [change_direction] does, in closed form. *)
Lemma change_direction_spec new w :
  Snake.change_direction new w =
  (Ret tt,
   if direction_changed w then w
   else with_direction_changed true
          (with_direction (if same_axis (direction w) new then direction w else new) w)).
Proof.
  destruct w as [gf d [] se mi sc]; [done|].
  by destruct d, new.
Qed.

(** C4: [change_direction] never raises and applies the requested heading
    exactly when the per-tick flag is clear and the request is not in the
    axis pair of the current heading; so a request for the opposite of the
    current heading, and a request for the current heading itself, leave the
    heading as it is. *)
Theorem change_direction_axis_guard (w : World) (new : Direction) :
  (Snake.change_direction new w).1 = Ret tt
  ∧ direction (Snake.change_direction new w).2 =
      (if negb (direction_changed w) && negb (same_axis (direction w) new)
       then new else direction w)
  ∧ direction (Snake.change_direction (opposite (direction w)) w).2 = direction w
  ∧ direction (Snake.change_direction (direction w) w).2 = direction w.
Proof.
  rewrite !change_direction_spec. simpl.
  rewrite opposite_same_axis, same_axis_refl.
  destruct (direction_changed w), (same_axis (direction w) new); done.
Qed.

(** Once the flag is set, any batch of requests is a no-op. *)
Lemma for_each_change_direction_set (l : list Direction) (w : World) :
  direction_changed w = true →
  for_each l Snake.change_direction w = (Ret tt, w).
Proof.
  intros Hset. unfold for_each.
  induction l as [|d l IH]; [done|].
  simpl. unfold bind, mbind, M_bind.
  by rewrite change_direction_spec, Hset.
Qed.

(** C5: a call made while the per-tick flag is set changes nothing; a call
    made while it is clear sets it, whatever the axis guard decided; so of
    the requests processed with no clear of the flag in between, only the
    first can alter the heading: the whole batch leaves the world as its
    first request alone does. *)
Theorem change_direction_once_per_tick (w : World) (new : Direction) (later : list Direction) :
  Snake.change_direction new (with_direction_changed true w)
    = (Ret tt, with_direction_changed true w)
  ∧ direction_changed (Snake.change_direction new (with_direction_changed false w)).2 = true
  ∧ direction_changed (Snake.change_direction new w).2 = true
  ∧ for_each (new :: later) Snake.change_direction w = Snake.change_direction new w.
Proof.
  split_and!.
  - by rewrite change_direction_spec.
  - by rewrite change_direction_spec.
  - rewrite change_direction_spec. by destruct (direction_changed w) eqn:E.
  - unfold for_each. simpl. unfold bind, mbind, M_bind.
    rewrite change_direction_spec. apply for_each_change_direction_set.
    by destruct (direction_changed w) eqn:E.
Qed.

(** The tick is what clears the flag: a returning [action] leaves it clear. *)
Lemma action_clears_flag (w w' : World) (r : nat) :
  Snake.action r w = (Ret tt, w') → direction_changed w' = false.
Proof.
  unfold Snake.action. rewrite seq_eq.
  destruct (Snake.move w) as [[[]|e] w1]; [|done].
  rewrite bind_eq. destruct (Snake.get_game_object_Mouse w1) as [[m|e] w2]; [|done].
  rewrite bind_eq. destruct (Snake.head w2) as [[h|e] w3]; [|done].
  rewrite seq_eq.
  match goal with |- context [let (_, _) := ?m w3 in _] => destruct (m w3) as [[[]|e] w4] end;
    [|done].
  by intros [= <-].
Qed.

(** ** Input codes *)

(** C8: an input code that is none of the four arrow-key codes is dropped:
    [event_received] returns without raising and the world, heading and
    per-tick flag included, is the one it was given. *)
Theorem unrecognized_input_ignored (KEY_LEFT KEY_RIGHT KEY_UP KEY_DOWN event : Z) (w : World) :
  event ∉ [KEY_LEFT; KEY_RIGHT; KEY_UP; KEY_DOWN] →
  event_received KEY_LEFT KEY_RIGHT KEY_UP KEY_DOWN event w = (Ret tt, w).
Proof.
  rewrite !not_elem_of_cons. intros (? & ? & ? & ? & _).
  unfold event_received, Direction_of. by rewrite !decide_False.
Qed.

Lemma unrecognized_input_ignored_witness :
  event_received 260 261 259 258 (-1) world_start = (Ret tt, world_start).
Proof.
  apply unrecognized_input_ignored.
  intros H. repeat (apply elem_of_cons in H as [H|H]; [lia|]). by apply elem_of_nil in H.
Defined.

(** ** Collision *)

(** C3: for every head position and every heading, advancing the head
    raises the game-over signal with the cause of that heading exactly when
    the destination cell is marked, whatever marked it, and then changes
    nothing; when the destination is free the head, and only the head, moves
    one cell in the heading.  This holds of [_move_right], [_move_left],
    [_move_up] and [_move_down], and of [_move_head], which picks among
    them by the current heading and then marks the cell of the head. *)
Theorem head_collision_iff_marked (w : World) (d : Direction)
    (h : SnakeElement.t) (t : list SnakeElement.t) :
  snake_elements w = h :: t →
  let c := GameField.cells (game_field w) in
  ((Snake._move_in d w).1 = Raise (GameOver (bumped d)) ↔ marked c (pos (advance d h)))
  ∧ (marked c (pos (advance d h)) → Snake._move_in d w = (Raise (GameOver (bumped d)), w))
  ∧ (free c (pos (advance d h)) →
     Snake._move_in d w = (Ret tt, with_snake_elements (advance d h :: t) w))
  ∧ ((Snake._move_head w).1 = Raise (GameOver (bumped (direction w)))
     ↔ marked c (pos (advance (direction w) h)))
  ∧ (free c (pos (advance (direction w) h)) →
     (Snake._move_head w).1 = Ret tt
     ∧ snake_elements (Snake._move_head w).2 = advance (direction w) h :: t).
Proof.
  intros Hse c. unfold marked, free. simpl.
  rewrite (_move_in_spec w d h t Hse), (_move_head_spec w h t Hse). simpl. fold c.
  split_and!.
  - destruct (GameField.get c _ _) as [[]|]; simpl; split; done.
  - by intros ->.
  - by intros ->.
  - destruct (GameField.get c _ _) as [[]|] eqn:Hget; simpl; [done| |done].
    destruct (set_is_Some _ _ _ _ true Hget) as [c' ->]. done.
  - intros Hget. rewrite Hget.
    destruct (set_is_Some _ _ _ _ true Hget) as [c' ->]. done.
Qed.

Lemma head_collision_iff_marked_witness :
  Snake._move_in RIGHT world_start
    = (Ret tt, with_snake_elements [SnakeElement.mk 1 2] world_start)
  ∧ Snake._move_in LEFT world_start = (Raise (GameOver "bumped left"), world_start).
Proof.
  split.
  - apply (head_collision_iff_marked world_start RIGHT (SnakeElement.mk 1 1) []);
      reflexivity.
  - apply (head_collision_iff_marked world_start LEFT (SnakeElement.mk 1 1) []);
      reflexivity.
Defined.

(** ** Occupancy *)

(** C1: in every state the game reaches from the initial state built by
    [main], through key events and successful ticks, the marked cells of the
    grid are exactly the border cells and the cells of the snake, and the
    same holds after one more successful [move] and after one more
    successful [action]; the cell the last segment leaves is free after
    the move unless the snake is on it again. *)
Theorem occupancy_invariant (KEY_LEFT KEY_RIGHT KEY_UP KEY_DOWN width height : Z)
    (r0 r1 : nat) (steps : list step) (w : World) :
  play KEY_LEFT KEY_RIGHT KEY_UP KEY_DOWN width height r0 r1 steps = (Ret tt, w) →
  well_shaped (game_field w)
  ∧ occupancy w
  ∧ (∀ w', Snake.move w = (Ret tt, w') → occupancy w')
  ∧ (∀ r w', Snake.action r w = (Ret tt, w') → occupancy w')
  ∧ (∀ w' init lst,
       Snake.move w = (Ret tt, w') → snake_elements w = init ++ [lst] →
       ¬ on_snake w' (pos lst) → free (GameField.cells (game_field w')) (pos lst)).
Proof.
  intros HInv%play_Inv. split_and!.
  - apply HInv.
  - apply HInv.
  - intros w' Hmove. by apply (move_Inv _ _ HInv Hmove).
  - intros r w' Hact. by apply (action_Inv _ _ _ HInv Hact).
  - intros w' init lst Hmove Hse Hoff.
    pose proof (move_Inv _ _ HInv Hmove) as [Hshape' _ _ _ Hocc'].
    apply move_Ret in Hmove as (e0 & init' & lst' & c & Hse' & _ & ->).
    rewrite Hse in Hse'. apply app_inj_tail in Hse' as [<- <-].
    assert (Hgrid : in_grid (game_field w) (pos lst)).
    { destruct HInv as [_ _ _ Hint _]. rewrite Hse in Hint.
      apply Forall_app in Hint as [_ Hl]. rewrite Forall_singleton in Hl.
      by apply interior_in_grid. }
    assert (Hnb : ¬ on_border (game_field w) (pos lst)).
    { destruct HInv as [_ _ _ Hint _]. rewrite Hse in Hint.
      apply Forall_app in Hint as [_ Hl]. rewrite Forall_singleton in Hl.
      by apply interior_not_border. }
    specialize (Hocc' (pos lst) Hgrid). unfold marked, free in *. simpl in *.
    destruct Hgrid as [Hy Hx].
    destruct (get_is_Some _ _ _ _ _ Hshape' Hy Hx) as [[] Hb]; simpl in Hb; [|done].
    exfalso. apply Hocc' in Hb as [Hb|Hb]; [by apply Hnb|by apply Hoff].
Qed.

Lemma occupancy_invariant_witness : occupancy world_two_ticks.
Proof.
  assert (Hplay : play 260 261 259 258 26 8 0 1 steps_two_ticks = (Ret tt, world_two_ticks))
    by (vm_compute; reflexivity).
  exact (proj1 (proj2 (occupancy_invariant _ _ _ _ _ _ _ _ _ _ Hplay))).
Defined.

(** ** Free cells *)

(** C7: a cell returned by [get_free_cell] is an interior cell of the
    grid, hence not in the border ring, and is not marked occupied; so in
    every state the game reaches, the mouse that replaces an eaten one is on
    a cell that is neither a border cell nor a cell of the snake. *)
Theorem free_cell_off_border_and_snake :
  (∀ gf r p,
     GameField.get_free_cell gf r = Ret p →
     interior gf p ∧ ¬ on_border gf p
     ∧ free (GameField.cells gf) p ∧ ¬ marked (GameField.cells gf) p)
  ∧ (∀ KEY_LEFT KEY_RIGHT KEY_UP KEY_DOWN width height r0 r1 steps w r w',
       play KEY_LEFT KEY_RIGHT KEY_UP KEY_DOWN width height r0 r1 steps = (Ret tt, w) →
       eats w = true →
       Snake.action r w = (Ret tt, w') →
       ∃ m, mice w' = [m]
            ∧ interior (game_field w') (mouse_pos m)
            ∧ ¬ on_border (game_field w') (mouse_pos m)
            ∧ ¬ on_snake w' (mouse_pos m)).
Proof.
  assert (Hfree : ∀ gf r p,
     GameField.get_free_cell gf r = Ret p →
     interior gf p ∧ ¬ on_border gf p
     ∧ free (GameField.cells gf) p ∧ ¬ marked (GameField.cells gf) p).
  { intros gf r p [[Hy Hx] Hp]%get_free_cell_scanned.
    assert (Hint : interior gf p) by (unfold interior; lia).
    split_and!; [done|by apply interior_not_border|done|].
    unfold marked, free in *. congruence. }
  split; [exact Hfree|].
  intros kl kr ku kd width height r0 r1 steps w r w' HInv%play_Inv Heats.
  apply eats_inv in Heats as (w1 & m & ms & h & t & Hmove & Hmice & Hse & Hint).
  rewrite (action_eats w r w1 m ms h t) by done.
  pose proof (move_Inv _ _ HInv Hmove) as HInv1.
  destruct (Snake._move_head _) as [[[]|e] w2] eqn:Hmh; [|done].
  pose proof (grow_Inv _ _ _ _ HInv1 Hse Hmh) as [_ _ _ _ Hocc2].
  destruct (GameField.get_free_cell _ r) as [p|] eqn:Hp; [|done].
  intros [= <-]. apply Hfree in Hp as (Hpint & Hpnb & _ & Hpnm).
  exists (Mouse.mk p.1 p.2). unfold mouse_pos, on_snake. simpl.
  replace (p.1, p.2) with p by (by destruct p).
  split_and!; [done..|].
  intros Hon. apply Hpnm, Hocc2; [by apply interior_in_grid|]. by right.
Qed.

Lemma free_cell_off_border_and_snake_witness :
  (interior (game_field world_start) (1, 2)
   ∧ ¬ on_border (game_field world_start) (1, 2)
   ∧ free (GameField.cells (game_field world_start)) (1, 2)
   ∧ ¬ marked (GameField.cells (game_field world_start)) (1, 2))
  ∧ ∃ m, mice (Snake.action 0 world_mouse_ahead).2 = [m]
         ∧ interior (game_field (Snake.action 0 world_mouse_ahead).2) (mouse_pos m)
         ∧ ¬ on_border (game_field (Snake.action 0 world_mouse_ahead).2) (mouse_pos m)
         ∧ ¬ on_snake (Snake.action 0 world_mouse_ahead).2 (mouse_pos m).
Proof.
  split.
  - apply (proj1 free_cell_off_border_and_snake (game_field world_start) 0%nat (1, 2)).
    vm_compute. reflexivity.
  - apply (proj2 free_cell_off_border_and_snake 260 261 259 258 26 8 0%nat 0%nat []
             world_mouse_ahead 0%nat (Snake.action 0 world_mouse_ahead).2).
    + vm_compute. reflexivity.
    + vm_compute. reflexivity.
    + vm_compute. reflexivity.
Defined.

(** C2 fails on the code: the loops of [get_free_cell] run over
    [range(1, height - 2)] and [range(1, width - 2)], which stop one short of
    the last interior row and column.  On the 4 by 4 field with the snake on
    (1, 1), three interior cells are free and [get_free_cell] raises the
    'win' signal for every random draw; on the 26 by 8 field of [main], the
    free interior cell (6, 24) is never returned. *)
Theorem get_free_cell_misses_last_row_and_column :
  (interior field_4x4 (1, 2) ∧ free (GameField.cells field_4x4) (1, 2)
   ∧ free (GameField.cells field_4x4) (2, 1) ∧ free (GameField.cells field_4x4) (2, 2)
   ∧ ∀ r, GameField.get_free_cell field_4x4 r = Raise (GameOver "win"))
  ∧ (interior (game_field world_start) (6, 24)
     ∧ free (GameField.cells (game_field world_start)) (6, 24)
     ∧ ∀ r, GameField.get_free_cell (game_field world_start) r ≠ Ret (6, 24)).
Proof.
  split_and!; try (by vm_compute).
  intros r [[Hy _] _]%get_free_cell_scanned. unfold world_start in Hy. simpl in Hy. lia.
Qed.

(** ** A colliding move *)

(** C10 as stated fails: a destination cell that is marked only because the
    last segment is on it is unmarked by the tail shift before the head
    looks at it, and the move returns.  The state is one the game reaches:
    a snake of four segments coiled in a square, the head turned towards its
    last segment. *)
Lemma move_onto_last_segment_returns :
  curses_play 26 8 0 0 steps_chasing_tail = (Ret tt, world_chasing_tail)
  ∧ direction world_chasing_tail = UP
  ∧ head (snake_elements world_chasing_tail) = Some (SnakeElement.mk 2 6)
  ∧ marked (GameField.cells (game_field world_chasing_tail))
           (pos (advance UP (SnakeElement.mk 2 6)))
  ∧ (Snake.move world_chasing_tail).1 = Ret tt.
Proof. split_and!; by vm_compute. Qed.

(** C10, amended: in a well-shaped state whose segments are on the grid, if
    the destination of the head is marked and is not the cell of the last
    segment, [move] raises the collision signal of the heading, and the
    world it leaves is the one after the tail shift: the head where it was,
    every other segment on the cell of the one before it, and the cell of
    the last segment (the head's own cell for a snake of one segment)
    unmarked. *)
Theorem move_collision_after_tail_shift (w : World)
    (init : list SnakeElement.t) (lst h : SnakeElement.t) :
  well_shaped (game_field w) →
  snake_elements w = init ++ [lst] →
  head (snake_elements w) = Some h →
  Forall (λ e, in_grid (game_field w) (pos e)) (snake_elements w) →
  in_grid (game_field w) (pos (advance (direction w) h)) →
  marked (GameField.cells (game_field w)) (pos (advance (direction w) h)) →
  advance (direction w) h ≠ lst →
  ∃ c',
    Snake.move w = (Raise (GameOver (bumped (direction w))),
                    with_cells c' (with_snake_elements (h :: init) w))
    ∧ free c' (pos lst)
    ∧ (∀ i e, (i < length init)%nat →
         snake_elements w !! i = Some e → (h :: init) !! S i = Some e).
Proof.
  intros Hshape Hse Hhd Hgrid Hdgrid Hmarked Hne.
  destruct (snake_elements w) as [|e0 rest] eqn:Hse0; [done|].
  simpl in Hhd. injection Hhd as ->.
  rewrite Hse in Hgrid. apply Forall_app in Hgrid as [Hginit Hglst].
  rewrite Forall_singleton in Hglst.
  assert (Hrange : Forall (λ p, 0 <= p.1 < GameField.height (game_field w)
                                ∧ 0 <= p.2 < GameField.width (game_field w)) (pos <$> init)).
  { by apply Forall_fmap. }
  destruct (set_all_is_Some _ _ _ (GameField.cells (game_field w)) true Hshape Hrange)
    as [c1 Hc1].
  pose proof (set_all_shaped _ _ _ _ _ _ Hc1 Hshape) as Hshape1.
  destruct Hglst as [Hly Hlx].
  destruct (set_in_grid_is_Some _ _ c1 (pos lst) false Hshape1 Hly Hlx) as [c2 Hc2].
  pose proof (_move_tail_spec w h rest init lst Hse0 Hse) as Hspec.
  rewrite Hc1 in Hspec. simpl in Hspec, Hc2, Hly, Hlx. rewrite Hc2 in Hspec.
  exists c2. split_and!.
  - unfold Snake.move. rewrite seq_eq, Hspec.
    erewrite _move_head_spec; [|reflexivity]. simpl.
    destruct Hdgrid as [Hdy Hdx]. simpl in Hdy, Hdx.
    rewrite (get_set_ne _ _ _ _ _ _ _ Hc2);
      [|lia|lia|lia|lia|intros Heq; apply Hne, pos_inj; by symmetry].
    pose proof (set_all_get _ _ _ _ (pos (advance (direction w) h)) Hc1) as Hg.
    simpl in Hg. rewrite Hg; [|eapply Forall_impl; [exact Hrange|]; simpl; lia|lia|lia].
    case_decide; [done|]. unfold marked in Hmarked. simpl in Hmarked. by rewrite Hmarked.
  - unfold free. by eapply get_set_eq.
  - intros i e Hi. rewrite Hse. simpl. by rewrite lookup_app_l.
Qed.

Lemma move_collision_after_tail_shift_witness :
  ∃ c',
    Snake.move world_two_segments_facing_wall
    = (Raise (GameOver "bumped up"),
       with_cells c'
         (with_snake_elements [SnakeElement.mk 1 3; SnakeElement.mk 1 3]
            world_two_segments_facing_wall))
    ∧ free c' (1, 2)
    ∧ (∀ i e, (i < 1)%nat →
         snake_elements world_two_segments_facing_wall !! i = Some e →
         [SnakeElement.mk 1 3; SnakeElement.mk 1 3] !! S i = Some e).
Proof.
  apply (move_collision_after_tail_shift world_two_segments_facing_wall
           [SnakeElement.mk 1 3] (SnakeElement.mk 1 2) (SnakeElement.mk 1 3)).
  - split; [reflexivity|]. unfold world_two_segments_facing_wall. simpl. repeat constructor.
  - reflexivity.
  - reflexivity.
  - unfold world_two_segments_facing_wall, in_grid. simpl.
    repeat (apply Forall_cons; split; [simpl; lia|]). by apply Forall_nil.
  - unfold world_two_segments_facing_wall, in_grid. simpl. lia.
  - reflexivity.
  - discriminate.
Defined.

(** * Further properties of the program *)

(** On a well-shaped field [get_free_cell] returns a free scanned cell, or
    raises 'win' when there is none. *)
Lemma get_free_cell_total (gf : GameField.t) (r : nat) :
  well_shaped gf →
  (∃ p, GameField.get_free_cell gf r = Ret p
        ∧ scanned gf p ∧ free (GameField.cells gf) p)
  ∨ (GameField.get_free_cell gf r = Raise (GameOver "win")
     ∧ ∀ p, scanned gf p → ¬ free (GameField.cells gf) p).
Proof.
  intros Hshape. destruct (free_cells_is_Some gf Hshape) as [fc Hfc].
  destruct (GameField.get_free_cell gf r) as [p|e] eqn:Hr.
  - left. exists p. split; [done|]. by apply get_free_cell_scanned in Hr.
  - right. unfold GameField.get_free_cell, GameField.choice in Hr. rewrite Hfc in Hr.
    destruct fc as [|q fc].
    + split; [done|]. intros p Hp Hfree.
      eapply not_elem_of_nil, (free_cells_elem _ _ p Hfc). by split.
    + destruct (lookup_lt_is_Some_2 (q :: fc) (r mod length (q :: fc))%nat) as [p' Hp'].
      { apply Nat.mod_upper_bound. simpl. lia. }
      by rewrite Hp' in Hr.
Qed.

(** X1: on a well-shaped field [get_free_cell] reads no cell out of range:
    it returns a free scanned cell or raises 'win', and raises 'win' exactly
    when no scanned cell is free; every free scanned cell is the result of
    some random draw. *)
Theorem get_free_cell_complete (gf : GameField.t) :
  well_shaped gf →
  (∀ r, (∃ p, GameField.get_free_cell gf r = Ret p
              ∧ scanned gf p ∧ free (GameField.cells gf) p)
        ∨ (GameField.get_free_cell gf r = Raise (GameOver "win")
           ∧ ∀ p, scanned gf p → ¬ free (GameField.cells gf) p))
  ∧ (∀ p, scanned gf p → free (GameField.cells gf) p →
          ∃ r, GameField.get_free_cell gf r = Ret p).
Proof.
  intros Hshape. split; [intros r; by apply get_free_cell_total|].
  destruct (free_cells_is_Some gf Hshape) as [fc Hfc].
  intros p Hp Hfree.
  assert (Hin : p ∈ fc) by (apply (free_cells_elem _ _ p Hfc); by split).
  apply list_elem_of_lookup_1 in Hin as [i Hi].
  pose proof (lookup_lt_Some _ _ _ Hi) as Hlt.
  exists i. unfold GameField.get_free_cell, GameField.choice. rewrite Hfc.
  destruct fc as [|q fc]; [simpl in Hlt; lia|].
  by rewrite Nat.mod_small, Hi by done.
Qed.

Lemma get_free_cell_complete_witness :
  ∃ r, GameField.get_free_cell (game_field world_start) r = Ret (5, 23).
Proof.
  apply (get_free_cell_complete (game_field world_start)).
  - split; [reflexivity|]. unfold world_start. simpl. repeat constructor.
  - unfold scanned, world_start. simpl. lia.
  - reflexivity.
Defined.

(** The ring membership of [border_cells], for cells of the grid. *)
Lemma border_cells_on_border gf p :
  in_grid gf p →
  p ∈ border_cells (GameField.height gf) (GameField.width gf) ↔ on_border gf p.
Proof.
  intros Hp. rewrite elem_of_border_cells. unfold on_border, in_grid in *. split.
  - intros [[_ ?]|[_ ?]]; (split; [done|]); tauto.
  - intros [_ [?|[?|[?|?]]]]; [left|left|right|right]; (split; [lia|]); tauto.
Qed.

Lemma border_cells_in_grid height width :
  1 <= height → 1 <= width →
  Forall (λ p, 0 <= p.1 < height ∧ 0 <= p.2 < width) (border_cells height width).
Proof.
  intros Hh Hw. apply Forall_forall. intros p Hp%elem_of_border_cells. lia.
Qed.

(** [Border.__init__] on a well-shaped field of its dimensions. *)
Lemma Border_init_ring (w : World) :
  well_shaped (game_field w) →
  1 <= GameField.height (game_field w) → 1 <= GameField.width (game_field w) →
  ∃ c',
    Border.init (GameField.height (game_field w)) (GameField.width (game_field w)) w
      = (Ret tt, with_cells c' w)
    ∧ shaped (GameField.height (game_field w)) (GameField.width (game_field w)) c'
    ∧ ∀ p, in_grid (game_field w) p →
        (on_border (game_field w) p → marked c' p)
        ∧ (¬ on_border (game_field w) p →
           GameField.get c' p.1 p.2 = GameField.get (GameField.cells (game_field w)) p.1 p.2).
Proof.
  intros Hshape Hh Hw.
  pose proof (border_cells_in_grid _ _ Hh Hw) as Hgrid.
  destruct (set_all_is_Some _ _ _ (GameField.cells (game_field w)) true Hshape Hgrid)
    as [c' Hc'].
  pose proof (Border_init_spec (GameField.height (game_field w))
                (GameField.width (game_field w)) w) as Hspec.
  rewrite Hc' in Hspec. exists c'. split_and!; [done|by eapply set_all_shaped|].
  intros p Hp. unfold marked.
  rewrite (set_all_get _ _ _ _ p Hc');
    [|eapply Forall_impl; [exact Hgrid|]; simpl; lia|destruct Hp; lia|destruct Hp; lia].
  rewrite <- (border_cells_on_border _ _ Hp).
  split; intros ?; case_decide; done.
Qed.

(** X2: on a well-shaped field of at least one row and one column,
    [Border.__init__] called with the dimensions of the field returns, marks
    every cell of the border ring, leaves every other cell of the grid as it
    was, and touches nothing else in the world. *)
Theorem Border_init_marks_ring (w : World) :
  well_shaped (game_field w) →
  1 <= GameField.height (game_field w) → 1 <= GameField.width (game_field w) →
  ∃ c',
    Border.init (GameField.height (game_field w)) (GameField.width (game_field w)) w
      = (Ret tt, with_cells c' w)
    ∧ shaped (GameField.height (game_field w)) (GameField.width (game_field w)) c'
    ∧ ∀ p, in_grid (game_field w) p →
        (on_border (game_field w) p → marked c' p)
        ∧ (¬ on_border (game_field w) p →
           GameField.get c' p.1 p.2 = GameField.get (GameField.cells (game_field w)) p.1 p.2).
Proof. apply Border_init_ring. Qed.

Lemma Border_init_marks_ring_witness :
  ∃ c',
    Border.init 8 26 (mkWorld (GameField.init 26 8) RIGHT false [] [] 0)
      = (Ret tt, with_cells c' (mkWorld (GameField.init 26 8) RIGHT false [] [] 0))
    ∧ shaped 8 26 c'
    ∧ ∀ p, in_grid (GameField.init 26 8) p →
        (on_border (GameField.init 26 8) p → marked c' p)
        ∧ (¬ on_border (GameField.init 26 8) p →
           GameField.get c' p.1 p.2
           = GameField.get (GameField.cells (GameField.init 26 8)) p.1 p.2).
Proof.
  apply (Border_init_marks_ring (mkWorld (GameField.init 26 8) RIGHT false [] [] 0)).
  - apply init_well_shaped; lia.
  - simpl. lia.
  - simpl. lia.
Defined.

(** X3: on a fresh field, [Border.__init__] raises [IndexError] when exactly
    one of the two dimensions is below one (a row or a column of the ring
    does not exist), and returns without marking anything when both are. *)
Theorem Border_init_degenerate (width height : Z) (w : World) :
  game_field w = GameField.init width height →
  (height <= 0 → 1 <= width → (Border.init height width w).1 = Raise IndexError)
  ∧ (1 <= height → width <= 0 → (Border.init height width w).1 = Raise IndexError)
  ∧ (height <= 0 → width <= 0 → Border.init height width w = (Ret tt, w)).
Proof.
  intros Hgf. pose proof (Border_init_spec height width w) as Hspec.
  rewrite Hgf in Hspec. simpl in Hspec. unfold border_cells, range in Hspec.
  split_and!.
  - intros Hh Hw. rewrite (seqZ_cons 0 (width - 0)) in Hspec by lia.
    replace (Z.to_nat height) with 0%nat in Hspec by lia. by simpl in Hspec.
  - intros Hh Hw. rewrite (seqZ_nil 0 (width - 0)) in Hspec by lia.
    rewrite (seqZ_cons 0 (height - 0)) in Hspec by lia.
    replace (Z.to_nat width) with 0%nat in Hspec by lia.
    destruct (Z.to_nat height) as [|n] eqn:Hn; [lia|]. by simpl in Hspec.
  - intros Hh Hw. rewrite (seqZ_nil 0 (width - 0)), (seqZ_nil 0 (height - 0)) in Hspec by lia.
    simpl in Hspec. rewrite Hspec. destruct w; simpl in *. by subst.
Qed.

Lemma Border_init_degenerate_witness :
  (Border.init 0 3 (mkWorld (GameField.init 3 0) RIGHT false [] [] 0)).1 = Raise IndexError
  ∧ (Border.init 3 0 (mkWorld (GameField.init 0 3) RIGHT false [] [] 0)).1 = Raise IndexError
  ∧ Border.init 0 0 (mkWorld (GameField.init 0 0) RIGHT false [] [] 0)
    = (Ret tt, mkWorld (GameField.init 0 0) RIGHT false [] [] 0).
Proof.
  split_and!.
  - destruct (Border_init_degenerate 3 0
                (mkWorld (GameField.init 3 0) RIGHT false [] [] 0) eq_refl) as (H & _ & _).
    apply H; lia.
  - destruct (Border_init_degenerate 0 3
                (mkWorld (GameField.init 0 3) RIGHT false [] [] 0) eq_refl) as (_ & H & _).
    apply H; lia.
  - destruct (Border_init_degenerate 0 0
                (mkWorld (GameField.init 0 0) RIGHT false [] [] 0) eq_refl) as (_ & _ & H).
    apply H; lia.
Defined.

(** ** What a move leaves alone *)

Section Frame.
Context (P : World → Prop).
Context (P_cells : ∀ c' y x v w,
  GameField.set (GameField.cells (game_field w)) y x v = Some c' → P w → P (with_cells c' w)).
Context (P_elements : ∀ l w,
  length l = length (snake_elements w) → P w → P (with_snake_elements l w)).

Lemma keeps_mbind {A B} (m : M A) (f : A → M B) :
  keeps P m → (∀ a, keeps P (f a)) → keeps P (m ≫= f).
Proof.
  intros Hm Hf w Hw. unfold mbind, M_bind. specialize (Hm w Hw).
  destruct (m w) as [[a|e] w1]; simpl in *; [by apply Hf|done].
Qed.

Lemma keeps_bind {A B} (m : M A) (f : A → M B) :
  keeps P m → (∀ a, keeps P (f a)) → keeps P (bind m f).
Proof. apply keeps_mbind. Qed.

Lemma keeps_pure {A} (o : World → outcome A) : keeps P (λ w, (o w, w)).
Proof. by intros w Hw. Qed.

Lemma keeps_cell y x : keeps P (cell y x).
Proof. by intros w Hw. Qed.

Lemma keeps_element i : keeps P (element i).
Proof. by intros w Hw. Qed.

Lemma keeps_set_cell y x v : keeps P (set_cell y x v).
Proof.
  intros w Hw. rewrite set_cell_eq.
  destruct (GameField.set _ _ _ _) eqn:Hset; simpl; eauto.
Qed.

Lemma keeps_set_element i e : keeps P (set_element i e).
Proof.
  intros w Hw. rewrite set_element_eq.
  destruct (py_setitem _ _ _) as [l'|] eqn:Hl; simpl; [|done].
  apply P_elements; [|done]. by eapply py_setitem_length.
Qed.

Lemma keeps_for_fold {A B} (l : list A) (body : A → B → M B) :
  (∀ a acc, keeps P (body a acc)) → ∀ acc, keeps P (for_fold l acc body).
Proof.
  intros Hbody. induction l as [|a l IH]; intros acc; simpl.
  - by intros w Hw.
  - apply keeps_bind; [apply Hbody|apply IH].
Qed.

Lemma keeps__move_tail : keeps P Snake._move_tail.
Proof.
  unfold Snake._move_tail.
  apply keeps_bind; [apply keeps_element|intros e0].
  apply keeps_bind; [by intros w Hw|intros n].
  apply keeps_bind; [|intros prev; apply keeps_set_cell].
  apply keeps_for_fold. intros idx prev. unfold Snake._move_tail_body.
  apply keeps_bind; [apply keeps_element|intros tmp].
  apply keeps_mbind; [apply keeps_set_element|intros _].
  apply keeps_mbind; [apply keeps_set_cell|intros _]. by intros w Hw.
Qed.

Lemma keeps__move_in d : keeps P (Snake._move_in d).
Proof.
  destruct d; unfold Snake._move_in, Snake._move_right, Snake._move_left,
    Snake._move_up, Snake._move_down, Snake.head;
    (apply keeps_bind; [apply keeps_element|intros h]);
    (apply keeps_bind; [apply keeps_cell|intros []]);
    try (by intros w Hw);
    (apply keeps_bind; [apply keeps_element|intros h']); apply keeps_set_element.
Qed.

Lemma keeps__move_head : keeps P Snake._move_head.
Proof.
  unfold Snake._move_head, Snake.head.
  apply keeps_bind; [by intros w Hw|intros d].
  apply keeps_mbind; [apply keeps__move_in|intros _].
  apply keeps_bind; [apply keeps_element|intros h]. apply keeps_set_cell.
Qed.

Lemma keeps_move : keeps P Snake.move.
Proof.
  unfold Snake.move. apply keeps_mbind; [apply keeps__move_tail|intros _].
  apply keeps__move_head.
Qed.
End Frame.

(** What [move] leaves alone, in every outcome. *)
Lemma move_rest (w : World) :
  direction (Snake.move w).2 = direction w
  ∧ direction_changed (Snake.move w).2 = direction_changed w
  ∧ mice (Snake.move w).2 = mice w
  ∧ score (Snake.move w).2 = score w
  ∧ GameField.width (game_field (Snake.move w).2) = GameField.width (game_field w)
  ∧ GameField.height (game_field (Snake.move w).2) = GameField.height (game_field w)
  ∧ length (snake_elements (Snake.move w).2) = length (snake_elements w)
  ∧ (well_shaped (game_field w) → well_shaped (game_field (Snake.move w).2)).
Proof.
  pose proof (keeps_move (λ w', direction w' = direction w
    ∧ direction_changed w' = direction_changed w
    ∧ mice w' = mice w
    ∧ score w' = score w
    ∧ GameField.width (game_field w') = GameField.width (game_field w)
    ∧ GameField.height (game_field w') = GameField.height (game_field w)
    ∧ length (snake_elements w') = length (snake_elements w)
    ∧ (well_shaped (game_field w) → well_shaped (game_field w')))) as Hk.
  apply Hk.
  - intros c' y x v w0 Hset (? & ? & ? & ? & Hwd & Hht & ? & Hsh). simpl.
    split_and!; try done. intros Hw. specialize (Hsh Hw).
    unfold well_shaped in *. simpl. by eapply set_shaped.
  - intros l w0 Hl (? & ? & ? & ? & ? & ? & Hlen & ?). simpl.
    split_and!; try done. congruence.
  - done.
Qed.

(** X4: [move], whether it returns or raises, and however far it got, never
    changes the heading, the per-tick flag, the mice, the score, the
    dimensions of the field or the number of segments, and it keeps a
    well-shaped grid well-shaped. *)
Theorem move_frame (w : World) :
  let w' := (Snake.move w).2 in
  direction w' = direction w
  ∧ direction_changed w' = direction_changed w
  ∧ mice w' = mice w
  ∧ score w' = score w
  ∧ GameField.width (game_field w') = GameField.width (game_field w)
  ∧ GameField.height (game_field w') = GameField.height (game_field w)
  ∧ length (snake_elements w') = length (snake_elements w)
  ∧ (well_shaped (game_field w) → well_shaped (game_field w')).
Proof. apply move_rest. Qed.

Lemma move_frame_witness :
  well_shaped (game_field (Snake.move world_start).2).
Proof.
  apply (move_frame world_start).
  split; [reflexivity|]. unfold world_start. simpl. repeat constructor.
Defined.

(** ** The tick, case by case *)

(** [action] in closed form. *)
Lemma action_cases w r :
  Snake.action r w =
  match Snake.move w with
  | (Raise e, w1) => (Raise e, w1)
  | (Ret _, w1) =>
      match mice w1, snake_elements w1 with
      | [], _ => (Raise AttributeError, w1)
      | _ :: _, [] => (Raise IndexError, w1)
      | m :: _, h :: t =>
          if Mouse.intersect m h then
            match Snake._move_head (with_snake_elements (h :: h :: t) w1) with
            | (Ret _, w2) =>
                match GameField.get_free_cell (game_field w2) r with
                | Ret c =>
                    (Ret tt, with_direction_changed false
                               (with_mice [Mouse.mk c.1 c.2] (with_score (score w2 + 1) w2)))
                | Raise e => (Raise e, with_mice [] (with_score (score w2 + 1) w2))
                end
            | (Raise e, w2) => (Raise e, w2)
            end
          else (Ret tt, with_direction_changed false w1)
      end
  end.
Proof.
  destruct (Snake.move w) as [[[]|e] w1] eqn:Hmove.
  2:{ unfold Snake.action. by rewrite seq_eq, Hmove. }
  destruct (mice w1) as [|m ms] eqn:Hmice.
  { unfold Snake.action, Snake.get_game_object_Mouse.
    rewrite seq_eq, Hmove, bind_eq, bind_eq. simpl. by rewrite Hmice. }
  destruct (snake_elements w1) as [|h t] eqn:Hse.
  { unfold Snake.action, Snake.get_game_object_Mouse, Snake.head.
    rewrite seq_eq, Hmove, bind_eq, bind_eq. simpl. rewrite Hmice. simpl.
    by rewrite bind_eq, element_eq, Hse. }
  destruct (Mouse.intersect m h) eqn:Hint.
  - by apply (action_eats w r w1 m ms h t).
  - by apply (action_no_eat w r w1 m ms h t).
Qed.

Lemma eats_cases w :
  eats w =
  match Snake.move w with
  | (Ret _, w1) =>
      match mice w1, snake_elements w1 with
      | m :: _, h :: _ => Mouse.intersect m h
      | _, _ => false
      end
  | _ => false
  end.
Proof. done. Qed.

(** [move] raises nothing but [IndexError] and the collision signal of the
    heading. *)
Lemma move_raises w e w1 :
  Snake.move w = (Raise e, w1) → e = IndexError ∨ e = GameOver (bumped (direction w)).
Proof.
  unfold Snake.move. rewrite seq_eq.
  destruct (snake_elements w) as [|e0 rest] eqn:Hse.
  { rewrite _move_tail_empty by done. intros [= <- _]. by left. }
  destruct (split_last e0 rest) as (init & lst & Hsplit).
  pose proof (_move_tail_spec w e0 rest init lst Hse Hsplit) as Hspec.
  destruct (_ ≫= _) as [c2|].
  - rewrite Hspec. erewrite _move_head_spec; [|reflexivity]. simpl.
    destruct (GameField.get _ _ _) as [[]|]; [| |].
    + intros [= <- _]. by right.
    + destruct (GameField.set _ _ _ _); [done|]. intros [= <- _]. by left.
    + intros [= <- _]. by left.
  - destruct Hspec as [w' ->]. intros [= <- _]. by left.
Qed.

Lemma get_free_cell_raises gf r e :
  GameField.get_free_cell gf r = Raise e → e = IndexError ∨ e = GameOver "win".
Proof.
  unfold GameField.get_free_cell.
  destruct (GameField.free_cells gf) as [[|p fc]|].
  - intros [= <-]. by right.
  - destruct (GameField.choice _ _); simpl; [done|]. intros [= <-]. by left.
  - intros [= <-]. by left.
Qed.

Lemma bumped_not_win d : bumped d ≠ "win".
Proof. by destruct d. Qed.

(** X5: the score counts the mice eaten: a tick that returns adds one to the
    score exactly when the snake eats; a tick that raises 'win' has eaten
    and has already counted that mouse; a tick that raises a collision
    leaves the score as it was, also when the collision comes from the
    second advance of the head, after the mouse was reached. *)
Theorem score_accounting (w : World) (r : nat) :
  ((Snake.action r w).1 = Ret tt →
   score (Snake.action r w).2 = score w + (if eats w then 1 else 0))
  ∧ ((Snake.action r w).1 = Raise (GameOver "win") →
     eats w = true ∧ score (Snake.action r w).2 = score w + 1)
  ∧ (∀ d, (Snake.action r w).1 = Raise (GameOver (bumped d)) →
     score (Snake.action r w).2 = score w).
Proof.
  rewrite action_cases, eats_cases.
  pose proof (move_rest w) as (_ & _ & _ & Hscore & _).
  destruct (Snake.move w) as [[[]|e] w1] eqn:Hmove; simpl in *.
  2:{ apply move_raises in Hmove as [->| ->]; split_and!; try done.
      intros [= Hb]. by apply bumped_not_win in Hb. }
  destruct (mice w1) as [|m ms]; [by split_and!|].
  destruct (snake_elements w1) as [|h t] eqn:Hse; [by split_and!|].
  destruct (Mouse.intersect m h); simpl; [|split_and!; [intros _; lia|done..]].
  erewrite _move_head_spec; [|reflexivity]. simpl.
  destruct (GameField.get _ _ _) as [[]|]; simpl.
  - split_and!; [done| |done]. intros [= Hb]. by apply bumped_not_win in Hb.
  - destruct (GameField.set _ _ _ _); simpl; [|by split_and!].
    destruct (GameField.get_free_cell _ _) as [p|e] eqn:Hfc; simpl.
    + split_and!; [intros _; lia|done..].
    + apply get_free_cell_raises in Hfc as [->| ->]; split_and!; try done.
      * intros _. split; [done|lia].
      * intros d [= Hb]. symmetry in Hb. by apply bumped_not_win in Hb.
  - by split_and!.
Qed.

Lemma score_accounting_witness :
  score (Snake.action 0 world_mouse_ahead).2 = 1
  ∧ score (Snake.action 0 world_start).2 = 0
  ∧ score (Snake.action 0 world_mouse_at_wall).2 = 0.
Proof.
  split_and!.
  - exact (proj1 (score_accounting world_mouse_ahead 0) eq_refl).
  - exact (proj1 (score_accounting world_start 0) eq_refl).
  - exact (proj2 (proj2 (score_accounting world_mouse_at_wall 0)) LEFT eq_refl).
Defined.



(** ** The constructor of the snake *)

(** [Snake.__init__] in closed form. *)
Lemma Snake_init_cases (w : World) (r : nat) :
  match GameField.get_free_cell (game_field w) r with
  | Ret p =>
      ∃ c', GameField.set (GameField.cells (game_field w)) p.1 p.2 true = Some c'
            ∧ free (GameField.cells (game_field w)) p
            ∧ marked c' p
            ∧ (∀ q, 0 <= q.1 → 0 <= q.2 → q ≠ p →
                 GameField.get c' q.1 q.2
                 = GameField.get (GameField.cells (game_field w)) q.1 q.2)
            ∧ Snake.init r w
              = (Ret tt, mkWorld (GameField.mk c' (GameField.width (game_field w))
                                    (GameField.height (game_field w)))
                           RIGHT false [SnakeElement.mk p.1 p.2] (mice w) (score w))
  | Raise e =>
      (Snake.init r w).1 = Raise e
      ∧ game_field (Snake.init r w).2 = game_field w
  end.
Proof.
  unfold Snake.init, set_cell, bind, mbind, M_bind, modify, gets, lift. simpl.
  destruct (GameField.get_free_cell _ r) as [p|e] eqn:Hp; simpl; [|done].
  apply get_free_cell_scanned in Hp as [[Hy Hx] Hfree].
  destruct (set_is_Some _ _ _ _ true Hfree) as [c' Hc']. rewrite Hc'. simpl.
  exists c'. split_and!; [done|done|by eapply get_set_eq| |done].
  intros q Hqy Hqx Hne. eapply get_set_ne; [done|lia|lia|done|done|].
  destruct p, q. simpl. congruence.
Qed.

(** X7: [Snake.__init__] takes the cell [get_free_cell] returns, which is
    free, makes it the only segment of a snake heading right with the
    per-tick flag clear, and marks that cell and no other; when
    [get_free_cell] raises, the grid is untouched. *)
Theorem Snake_init_spec (w : World) (r : nat) :
  match GameField.get_free_cell (game_field w) r with
  | Ret p =>
      ∃ c', GameField.set (GameField.cells (game_field w)) p.1 p.2 true = Some c'
            ∧ free (GameField.cells (game_field w)) p
            ∧ marked c' p
            ∧ (∀ q, 0 <= q.1 → 0 <= q.2 → q ≠ p →
                 GameField.get c' q.1 q.2
                 = GameField.get (GameField.cells (game_field w)) q.1 q.2)
            ∧ Snake.init r w
              = (Ret tt, mkWorld (GameField.mk c' (GameField.width (game_field w))
                                    (GameField.height (game_field w)))
                           RIGHT false [SnakeElement.mk p.1 p.2] (mice w) (score w))
  | Raise e =>
      (Snake.init r w).1 = Raise e
      ∧ game_field (Snake.init r w).2 = game_field w
  end.
Proof. apply Snake_init_cases. Qed.

(** ** Key codes *)

(** X8: with four different key codes, decoding a code and taking the value
    of a heading are inverse to each other. *)
Theorem Direction_round_trip (KEY_LEFT KEY_RIGHT KEY_UP KEY_DOWN : Z) :
  NoDup [KEY_LEFT; KEY_RIGHT; KEY_UP; KEY_DOWN] →
  (∀ d, Direction_of KEY_LEFT KEY_RIGHT KEY_UP KEY_DOWN
          (Direction_value KEY_LEFT KEY_RIGHT KEY_UP KEY_DOWN d) = Some d)
  ∧ (∀ event d, Direction_of KEY_LEFT KEY_RIGHT KEY_UP KEY_DOWN event = Some d →
        event = Direction_value KEY_LEFT KEY_RIGHT KEY_UP KEY_DOWN d).
Proof.
  rewrite !NoDup_cons, !not_elem_of_cons.
  intros ((? & ? & ? & _) & (? & ? & _) & (? & _) & _). split.
  - intros d. unfold Direction_of.
    destruct d; simpl; repeat (case_decide; try done).
  - intros event d. unfold Direction_of.
    repeat case_decide; intros [= <-]; done.
Qed.

Lemma Direction_round_trip_witness :
  Direction_of 260 261 259 258 (Direction_value 260 261 259 258 UP) = Some UP.
Proof.
  apply (proj1 (Direction_round_trip 260 261 259 258 ltac:(by compute_done)) UP).
Defined.

(** ** Key events between two ticks *)

(** One key event, in closed form. *)
Lemma event_received_spec kl kr ku kd event w :
  event_received kl kr ku kd event w =
  (Ret tt,
   match Direction_of kl kr ku kd event with
   | Some new =>
       if direction_changed w then w
       else with_direction_changed true
              (with_direction (if same_axis (direction w) new then direction w else new) w)
   | None => w
   end).
Proof.
  unfold event_received. destruct (Direction_of _ _ _ _ _); [|done].
  apply change_direction_spec.
Qed.

(** With the flag set, key events change nothing. *)
Lemma run_keys_flag_set kl kr ku kd events w :
  direction_changed w = true →
  run kl kr ku kd (Key <$> events) w = (Ret tt, w).
Proof.
  intros Hset. unfold run, for_each.
  induction events as [|ev events IH]; [done|]. simpl.
  rewrite bind_eq, event_received_spec, Hset.
  by destruct (Direction_of _ _ _ _ ev).
Qed.

(** X9: whatever key events arrive between two ticks, they are all
    processed without an exception, they change nothing but the heading and
    the per-tick flag, and the heading they leave is the one before them or
    one of the two across it, never its opposite: the snake cannot be
    turned back on itself within one tick. *)
Theorem keys_never_reverse (KEY_LEFT KEY_RIGHT KEY_UP KEY_DOWN : Z)
    (events : list Z) (w : World) :
  ∃ d b,
    run KEY_LEFT KEY_RIGHT KEY_UP KEY_DOWN (Key <$> events) w
      = (Ret tt, with_direction_changed b (with_direction d w))
    ∧ d ≠ opposite (direction w)
    ∧ (d = direction w ∨ same_axis (direction w) d = false)
    ∧ (direction_changed w = true → d = direction w ∧ b = true).
Proof.
  assert (Hgen : ∀ d0 w1,
    w1 = with_direction_changed (direction_changed w1) (with_direction (direction w1) w) →
    (direction w1 = d0 ∨ (direction_changed w1 = true ∧ same_axis d0 (direction w1) = false)) →
    ∃ d b,
      run KEY_LEFT KEY_RIGHT KEY_UP KEY_DOWN (Key <$> events) w1
      = (Ret tt, with_direction_changed b (with_direction d w))
      ∧ (d = d0 ∨ same_axis d0 d = false)).
  { unfold run, for_each.
    induction events as [|ev events IH]; intros d0 w1 Hw1 Hd; simpl.
    - exists (direction w1), (direction_changed w1). unfold mret, M_ret.
      split; [by rewrite <- Hw1|tauto].
    - rewrite bind_eq, event_received_spec.
      destruct (Direction_of _ _ _ _ ev) as [new|]; [|by apply IH].
      destruct (direction_changed w1) eqn:Hflag; [by apply IH; rewrite ?Hflag|].
      destruct Hd as [Hd|[? _]]; [|done].
      apply IH.
      + simpl. rewrite Hw1. by destruct w.
      + simpl. rewrite Hd. destruct (same_axis d0 new) eqn:Hax; [by left|by right]. }
  destruct (Hgen (direction w) w) as (d & b & Hrun & Hor).
  { by destruct w. } { by left. }
  exists d, b. split_and!; [done| |done|].
  - intros ->. destruct Hor as [Heq|Hax].
    + by destruct (direction w).
    + by rewrite opposite_same_axis in Hax.
  - intros Hset. rewrite (run_keys_flag_set _ _ _ _ _ _ Hset) in Hrun.
    injection Hrun as Hw.
    pose proof (f_equal direction Hw) as H1.
    pose proof (f_equal direction_changed Hw) as H2.
    simpl in H1, H2. split; congruence.
Qed.

Lemma keys_never_reverse_witness :
  ∃ d b,
    run 260 261 259 258 (Key <$> [260; 258; 261]) world_facing_wall
      = (Ret tt, with_direction_changed b (with_direction d world_facing_wall))
    ∧ d = UP ∧ b = true.
Proof.
  destruct (keys_never_reverse 260 261 259 258 [260; 258; 261] world_facing_wall)
    as (d & b & Hrun & _ & _ & Hset).
  exists d, b. split; [exact Hrun|]. apply Hset. reflexivity.
Defined.

(** ** The mouse and the shape of the snake in the running game *)

Lemma intersect_false m h : Mouse.intersect m h = false ↔ mouse_pos m ≠ pos h.
Proof.
  unfold Mouse.intersect, mouse_pos, pos. rewrite andb_false_iff, !bool_decide_eq_false.
  split; [intros [?|?] [= ? ?]; done|].
  intros Hne. destruct (decide (Mouse.x m = SnakeElement.x h)); [|by left].
  right. intros ?. apply Hne. congruence.
Qed.

Lemma adjacent_advance d h : adjacent (advance d h) h.
Proof. unfold adjacent. destruct d; simpl; lia. Qed.

Lemma connected_app_l l k : connected (l ++ k) → connected l.
Proof.
  induction l as [|a [|b l] IH]; simpl; [done..|].
  intros [? ?]. split; [done|]. by apply IH.
Qed.

Lemma connected_advance d h init lst :
  head (init ++ [lst]) = Some h → connected (init ++ [lst]) →
  connected (advance d h :: init).
Proof.
  intros Hhd Hc. apply connected_app_l in Hc.
  destruct init as [|e0 init]; [done|]. simpl in Hhd. injection Hhd as ->.
  split; [apply adjacent_advance|done].
Qed.

Lemma scanned_interior gf p : scanned gf p → interior gf p.
Proof. unfold scanned, interior. lia. Qed.


(** A tick keeps the invariant of the running game. *)
Lemma action_GameInv w r w' : GameInv w → Snake.action r w = (Ret tt, w') → GameInv w'.
Proof.
  intros (HInv & (m & Hmice & Hscan & Hoff) & Hconn) Hact.
  pose proof (action_Inv _ _ _ HInv Hact) as HInv'.
  split; [done|]. revert Hact. rewrite action_cases.
  destruct (Snake.move w) as [[[]|e] w1] eqn:Hmove; [|done].
  apply move_Ret in Hmove as (e0 & init & lst & c & Hse & Hhd & ->). simpl.
  rewrite Hmice.
  assert (Hconn1 : connected (advance (direction w) e0 :: init)).
  { rewrite Hse in Hhd, Hconn. by eapply connected_advance. }
  destruct (Mouse.intersect m _) eqn:Hint.
  - erewrite _move_head_spec; [|reflexivity]. simpl.
    destruct (GameField.get _ _ _) as [[]|]; [done| |done].
    destruct (GameField.set _ _ _ _) as [c'|]; [|done]. simpl.
    destruct (GameField.get_free_cell _ _) as [p|] eqn:Hp; [|done].
    intros [= <-]. split.
    + exists (Mouse.mk p.1 p.2). apply get_free_cell_scanned in Hp as [Hps Hpf].
      unfold mouse_pos. simpl in *. replace (p.1, p.2) with p by (by destruct p).
      split_and!; [done|done|].
      intros Hon. destruct HInv' as [_ _ _ _ Hocc'].
      assert (Hm : marked c' p).
      { apply (Hocc' p); [by apply interior_in_grid, scanned_interior|by right]. }
      unfold marked, free in *. congruence.
    + simpl. split; [apply adjacent_advance|done].
  - intros [= <-]. split; [|done].
    exists m. split_and!; [done|done|]. unfold on_snake in *. simpl.
    rewrite elem_of_cons. intros [Hh|Hin].
    + by apply intersect_false in Hint.
    + apply Hoff. rewrite Hse, fmap_app, elem_of_app. by left.
Qed.

Lemma do_step_GameInv kl kr ku kd s w w' :
  GameInv w → do_step kl kr ku kd s w = (Ret tt, w') → GameInv w'.
Proof.
  destruct s as [event|r]; simpl; [|by apply action_GameInv].
  rewrite event_received_spec. intros (HInv & HM & Hc) [= <-].
  destruct (Direction_of _ _ _ _ _) as [new|]; [|done].
  destruct (direction_changed w); [done|].
  split_and!; [by eapply Inv_frame; [| |exact HInv]|done|done].
Qed.

Lemma run_GameInv kl kr ku kd steps : ∀ w w',
  GameInv w → run kl kr ku kd steps w = (Ret tt, w') → GameInv w'.
Proof.
  unfold run, for_each.
  induction steps as [|s steps IH]; intros w w' HInv; simpl.
  - by intros [= <-].
  - rewrite bind_eq. destruct (do_step _ _ _ _ s w) as [[[]|e] w1] eqn:Hs; [|done].
    apply IH. by eapply do_step_GameInv.
Qed.

Lemma main_GameInv width height r0 r1 w :
  main width height r0 r1 = (Ret tt, w) → GameInv w.
Proof.
  intros Hmain. pose proof (main_Inv _ _ _ _ _ Hmain) as HInv.
  split; [done|]. revert Hmain HInv. unfold main. rewrite seq_eq.
  set (w0 := mkWorld (GameField.init width height) RIGHT false [] [] 0).
  pose proof (Border_init_spec height width w0) as Hb.
  destruct (set_all _ (border_cells height width) true) as [c1|].
  2:{ destruct (Border.init height width w0) as [[[]|e] ?]; simplify_eq/=. done. }
  rewrite Hb. set (w1 := with_cells c1 w0).
  pose proof (Snake_init_cases w1 r0) as Hinit. rewrite seq_eq.
  destruct (GameField.get_free_cell (game_field w1) r0) as [p|e] eqn:Hp.
  2:{ destruct Hinit as [Hr _]. by destruct (Snake.init r0 w1) as [[[]|?] ?]; simplify_eq/=. }
  destruct Hinit as (c' & Hc' & _ & Hmark & _ & ->).
  rewrite bind_eq. simpl. rewrite bind_eq. unfold lift.
  destruct (GameField.get_free_cell _ r1) as [q|] eqn:Hq; [|done].
  simpl. intros [= <-] HInv. split; [|done].
  apply get_free_cell_scanned in Hq as [Hqs Hqf]. simpl in Hqs, Hqf.
  exists (Mouse.mk q.1 q.2). unfold mouse_pos, on_snake. simpl.
  replace (q.1, q.2) with q by (by destruct q).
  split_and!; [done|done|].
  rewrite list_elem_of_singleton. unfold pos. simpl. intros ->.
  unfold marked, free in *. simpl in *. congruence.
Qed.

Lemma play_GameInv kl kr ku kd width height r0 r1 steps w :
  play kl kr ku kd width height r0 r1 steps = (Ret tt, w) → GameInv w.
Proof.
  unfold play. destruct (main width height r0 r1) as [[[]|e] w0] eqn:Hmain; [|done].
  apply run_GameInv. by eapply main_GameInv.
Qed.

Lemma GameInv_mouse w :
  GameInv w →
  ∃ m, mice w = [m]
       ∧ scanned (game_field w) (mouse_pos m)
       ∧ free (GameField.cells (game_field w)) (mouse_pos m)
       ∧ ¬ on_border (game_field w) (mouse_pos m)
       ∧ ¬ on_snake w (mouse_pos m).
Proof.
  intros ([Hshape _ _ _ Hocc] & (m & Hmice & Hscan & Hoff) & _).
  exists m. pose proof (scanned_interior _ _ Hscan) as Hint.
  pose proof (interior_not_border _ _ Hint) as Hnb.
  pose proof (interior_in_grid _ _ Hint) as Hgrid.
  split_and!; [done|done| |done|done].
  destruct Hgrid as [Hy Hx].
  destruct (get_is_Some _ _ _ _ _ Hshape Hy Hx) as [[] Hb]; [|done].
  exfalso. apply (Hocc _ (conj Hy Hx)) in Hb as [?|?]; done.
Qed.

(** X10: in every state the game reaches there is exactly one mouse; it lies
    on a cell [get_free_cell] scans (rows 1 to height - 3, columns 1 to
    width - 3), which is free: not a border cell and not under the snake. *)
Theorem one_mouse_on_a_free_cell (KEY_LEFT KEY_RIGHT KEY_UP KEY_DOWN width height : Z)
    (r0 r1 : nat) (steps : list step) (w : World) :
  play KEY_LEFT KEY_RIGHT KEY_UP KEY_DOWN width height r0 r1 steps = (Ret tt, w) →
  ∃ m, mice w = [m]
       ∧ scanned (game_field w) (mouse_pos m)
       ∧ free (GameField.cells (game_field w)) (mouse_pos m)
       ∧ ¬ on_border (game_field w) (mouse_pos m)
       ∧ ¬ on_snake w (mouse_pos m).
Proof. intros HInv%play_GameInv. by apply GameInv_mouse. Qed.

Lemma one_mouse_on_a_free_cell_witness :
  ∃ m, mice world_chasing_tail = [m]
       ∧ scanned (game_field world_chasing_tail) (mouse_pos m)
       ∧ free (GameField.cells (game_field world_chasing_tail)) (mouse_pos m)
       ∧ ¬ on_border (game_field world_chasing_tail) (mouse_pos m)
       ∧ ¬ on_snake world_chasing_tail (mouse_pos m).
Proof.
  apply (one_mouse_on_a_free_cell 260 261 259 258 26 8 0 0 steps_chasing_tail).
  vm_compute. reflexivity.
Defined.

(** X11: in every state the game reaches the snake is a path that does not
    cross itself: it has at least one segment, no two segments are on the
    same cell, every segment is next to the one behind it, and all are
    interior cells. *)
Theorem snake_is_a_simple_path (KEY_LEFT KEY_RIGHT KEY_UP KEY_DOWN width height : Z)
    (r0 r1 : nat) (steps : list step) (w : World) :
  play KEY_LEFT KEY_RIGHT KEY_UP KEY_DOWN width height r0 r1 steps = (Ret tt, w) →
  snake_elements w ≠ []
  ∧ NoDup (snake_elements w)
  ∧ connected (snake_elements w)
  ∧ Forall (λ e, interior (game_field w) (pos e)) (snake_elements w).
Proof.
  intros ([_ Hne Hnd Hint _] & _ & Hconn)%play_GameInv.
  split_and!; [done| |done|done]. by eapply NoDup_fmap_1.
Qed.

Lemma snake_is_a_simple_path_witness :
  connected (snake_elements world_chasing_tail).
Proof.
  apply (snake_is_a_simple_path 260 261 259 258 26 8 0 0 steps_chasing_tail).
  vm_compute. reflexivity.
Defined.

(** ** No crash *)






(** ** Starting the game *)

(** [main] in closed form, on a field of at least one row and column. *)
Lemma main_cases width height r0 r1 :
  1 <= height → 1 <= width →
  ∃ c1,
    shaped height width c1
    ∧ (∀ p, in_grid (GameField.init width height) p →
         GameField.get c1 p.1 p.2
         = Some (bool_decide (on_border (GameField.init width height) p)))
    ∧ (main width height r0 r1).1 =
      match GameField.get_free_cell (GameField.mk c1 width height) r0 with
      | Ret p =>
          match GameField.set c1 p.1 p.2 true with
          | Some c2 =>
              match GameField.get_free_cell (GameField.mk c2 width height) r1 with
              | Ret q => Ret tt
              | Raise e => Raise e
              end
          | None => Raise IndexError
          end
      | Raise e => Raise e
      end.
Proof.
  intros Hh Hw.
  set (w0 := mkWorld (GameField.init width height) RIGHT false [] [] 0).
  destruct (Border_init_ring w0) as (c1 & Hb & Hshape1 & Hc1);
    [apply init_well_shaped; lia|simpl; lia|simpl; lia|].
  simpl in Hb, Hshape1, Hc1. exists c1. split_and!; [done| |].
  - intros p Hp. destruct (Hc1 p Hp) as [Hon Hoff]. case_bool_decide as Hbd.
    + by apply Hon.
    + rewrite (Hoff Hbd). destruct Hp. by apply get_init.
  - unfold main. fold w0. rewrite seq_eq, Hb.
    unfold Snake.init, set_cell, bind, mbind, M_bind, modify, gets, lift. simpl.
    destruct (GameField.get_free_cell _ r0) as [p|]; [|done]. simpl.
    destruct (GameField.set c1 _ _ _) as [c2|]; [|done]. simpl.
    by destruct (GameField.get_free_cell _ r1).
Qed.

(** X13: [main] gets as far as the game loop exactly when the field has at
    least four rows and four columns and more than four of one of them, so
    that [get_free_cell] scans at least two cells, one for the snake and
    one for the mouse; on a smaller field with at least one row and one
    column it ends with the 'win' signal before the first tick.  When it
    returns, the snake has one segment, heads right, and the score is
    zero. *)
Theorem main_returns_iff (width height : Z) (r0 r1 : nat) :
  ((main width height r0 r1).1 = Ret tt ↔ 4 <= height ∧ 4 <= width ∧ 9 <= height + width)
  ∧ (1 <= height → 1 <= width → ¬ (4 <= height ∧ 4 <= width ∧ 9 <= height + width) →
     (main width height r0 r1).1 = Raise (GameOver "win"))
  ∧ ((main width height r0 r1).1 = Ret tt →
     length (snake_elements (main width height r0 r1).2) = 1%nat
     ∧ direction (main width height r0 r1).2 = RIGHT
     ∧ direction_changed (main width height r0 r1).2 = false
     ∧ score (main width height r0 r1).2 = 0).
Proof.
  assert (Hfwd : (main width height r0 r1).1 = Ret tt →
                 4 <= height ∧ 4 <= width ∧ 9 <= height + width).
  { destruct (main width height r0 r1) as [o w] eqn:Hmain. simpl. intros ->.
    pose proof (main_GameInv _ _ _ _ _ Hmain) as ([_ Hne _ _ _] & (m & _ & Hscan & Hoff) & _).
    pose proof (main_Inv _ _ _ _ _ Hmain) as HInv.
    revert Hmain. unfold main. rewrite seq_eq.
    set (w0 := mkWorld (GameField.init width height) RIGHT false [] [] 0).
    pose proof (Border_init_spec height width w0) as Hb.
    destruct (set_all _ (border_cells height width) true) as [c1|].
    2:{ destruct (Border.init height width w0) as [[[]|e] ?]; simplify_eq/=. done. }
    rewrite Hb. unfold Snake.init, set_cell, bind, mbind, M_bind, modify, gets, lift. simpl.
    destruct (GameField.get_free_cell _ r0) as [p|] eqn:Hp; [|done]. simpl.
    apply get_free_cell_scanned in Hp as [Hps _]. simpl in Hps.
    destruct (GameField.set c1 _ _ _) as [c2|]; [|done]. simpl.
    destruct (GameField.get_free_cell _ r1) as [q|] eqn:Hq; [|done].
    apply get_free_cell_scanned in Hq as [Hqs _]. simpl in Hqs.
    intros [= <-]. unfold on_snake, mouse_pos, pos, scanned in *. simpl in *.
    rewrite list_elem_of_singleton in Hoff.
    destruct (decide (height = 4 ∧ width = 4)) as [[-> ->]|Hn]; [|lia].
    exfalso. apply Hoff. f_equal; lia. }
  assert (Hsmall : 1 <= height → 1 <= width →
            ¬ (4 <= height ∧ 4 <= width ∧ 9 <= height + width) →
            (main width height r0 r1).1 = Raise (GameOver "win")).
  { intros Hh Hw Hn.
    destruct (main_cases width height r0 r1 Hh Hw) as (c1 & Hshape1 & Hc1 & ->).
    destruct (get_free_cell_total (GameField.mk c1 width height) r0 Hshape1)
      as [(p & -> & [Hpy Hpx] & Hpf)|[-> _]]; [|done].
    simpl in Hpy, Hpx. unfold free in Hpf. simpl in Hpf.
    destruct (set_is_Some _ _ _ _ true Hpf) as [c2 Hc2]. rewrite Hc2.
    assert (Hshape2 : well_shaped (GameField.mk c2 width height)).
    { unfold well_shaped. simpl. by eapply set_shaped. }
    destruct (get_free_cell_total _ r1 Hshape2)
      as [(q & -> & [Hqy Hqx] & Hqf)|[-> _]]; [|done].
    simpl in Hqy, Hqx. exfalso.
    assert (q = p) as -> by (destruct p, q; simpl in *; f_equal; lia).
    unfold free in Hqf. simpl in Hqf. rewrite (get_set_eq _ _ _ _ _ Hc2) in Hqf. done. }
  split_and!; [split; [done|]|done|].
  - intros (Hh & Hw & Hsum).
    destruct (main_cases width height r0 r1) as (c1 & Hshape1 & Hc1 & ->); [lia..|].
    assert (Hfree1 : ∀ p, 1 <= p.1 < height - 2 → 1 <= p.2 < width - 2 →
                          GameField.get c1 p.1 p.2 = Some false).
    { intros p Hy Hx. rewrite Hc1 by (unfold in_grid; simpl; lia).
      rewrite bool_decide_eq_false_2; [done|]. unfold on_border. simpl. lia. }
    destruct (get_free_cell_total (GameField.mk c1 width height) r0 Hshape1)
      as [(p & -> & [Hpy Hpx] & Hpf)|[_ Hnone]].
    2:{ exfalso. apply (Hnone (1, 1)); [unfold scanned; simpl; lia|].
        apply (Hfree1 (1, 1)); simpl; lia. }
    simpl in Hpy, Hpx. unfold free in Hpf. simpl in Hpf.
    destruct (set_is_Some _ _ _ _ true Hpf) as [c2 Hc2]. rewrite Hc2.
    assert (Hshape2 : well_shaped (GameField.mk c2 width height)).
    { unfold well_shaped. simpl. by eapply set_shaped. }
    destruct (get_free_cell_total _ r1 Hshape2)
      as [(q & -> & _)|[_ Hnone]]; [done|].
    exfalso.
    assert (Hother : ∃ q, 1 <= q.1 < height - 2 ∧ 1 <= q.2 < width - 2 ∧ q ≠ p).
    { destruct (decide (p = (1, 1))) as [->|?].
      - destruct (decide (5 <= width)).
        + exists (1, 2). simpl. split_and!; [lia..|done].
        + exists (2, 1). simpl. split_and!; [lia..|done].
      - exists (1, 1). simpl. split_and!; [lia..|done]. }
    destruct Hother as (q & Hqy & Hqx & Hne).
    apply (Hnone q); [by split|]. unfold free. simpl.
    rewrite (get_set_ne _ _ _ _ _ q.1 q.2 Hc2); [by apply Hfree1|lia..|].
    destruct p, q. simpl. congruence.
  - destruct (main width height r0 r1) as [o w] eqn:Hmain. simpl. intros ->.
    revert Hmain. unfold main. rewrite seq_eq.
    set (w0 := mkWorld (GameField.init width height) RIGHT false [] [] 0).
    pose proof (Border_init_spec height width w0) as Hb.
    destruct (set_all _ (border_cells height width) true) as [c1|].
    2:{ destruct (Border.init height width w0) as [[[]|e] ?]; simplify_eq/=. done. }
    rewrite Hb. unfold Snake.init, set_cell, bind, mbind, M_bind, modify, gets, lift. simpl.
    destruct (GameField.get_free_cell _ r0) as [p|]; [|done]. simpl.
    destruct (GameField.set c1 _ _ _) as [c2|]; [|done]. simpl.
    destruct (GameField.get_free_cell _ r1) as [q|]; [|done].
    by intros [= <-].
Qed.

Lemma main_returns_iff_witness :
  (main 26 8 0 0).1 = Ret tt ∧ (main 4 4 0 0).1 = Raise (GameOver "win").
Proof.
  split.
  - apply (main_returns_iff 26 8 0 0). lia.
  - apply (main_returns_iff 4 4 0 0); lia.
Defined.

(** * The registry, the window and the loop *)

(** ** The registry *)

(** X14: lookup, removal and registration in the registry: after
    [remove_game_object] of a type, [get_game_object] of that type finds
    nothing; an object of the type registered next is the one found; an
    object already found stays the one found when others are registered
    after it; and [get_game_object] finds nothing exactly when no
    registered object is of the type. *)
Theorem registry_round_trip (T : GameWorld.class) (o : GameWorld.game_object)
    (self : GameWorld.t) :
  GameWorld.get_game_object T (GameWorld.remove_game_object T self) = None
  ∧ (GameWorld.isinstance o T = true →
     GameWorld.get_game_object T (GameWorld.add o (GameWorld.remove_game_object T self))
     = Some o)
  ∧ (∀ o', GameWorld.get_game_object T self = Some o' →
     GameWorld.get_game_object T (GameWorld.add o self) = Some o')
  ∧ (GameWorld.get_game_object T self = None ↔
     ∀ o', o' ∈ GameWorld.game_objects self → GameWorld.isinstance o' T = false).
Proof.
  unfold GameWorld.get_game_object, GameWorld.remove_game_object, GameWorld.add. simpl.
  assert (Hnone : ∀ l, List.find (λ o, GameWorld.isinstance o T)
                         (List.filter (λ o, negb (GameWorld.isinstance o T)) l) = None).
  { induction l as [|a l IH]; simpl; [done|].
    destruct (GameWorld.isinstance a T) eqn:Ha; simpl; [done|]. by rewrite Ha. }
  assert (Happ : ∀ l k, List.find (λ o, GameWorld.isinstance o T) (l ++ k) =
            match List.find (λ o, GameWorld.isinstance o T) l with
            | Some a => Some a
            | None => List.find (λ o, GameWorld.isinstance o T) k
            end).
  { induction l as [|a l IH]; intros k; simpl; [done|].
    by destruct (GameWorld.isinstance a T). }
  split_and!.
  - apply Hnone.
  - intros Ho. rewrite Happ, Hnone. simpl. by rewrite Ho.
  - intros o' Ho'. by rewrite Happ, Ho'.
  - induction (GameWorld.game_objects self) as [|a l IH]; simpl.
    + split; [|done]. intros _ o' Hin. by apply elem_of_nil in Hin.
    + destruct (GameWorld.isinstance a T) eqn:Ha.
      * split; [done|]. intros Hall. rewrite (Hall a) in Ha; [done|]. by left.
      * rewrite IH. split.
        -- intros Hall o' [->|Hin]%elem_of_cons; [done|by apply Hall].
        -- intros Hall o' Hin. apply Hall. by right.
Qed.

Lemma registry_round_trip_witness :
  GameWorld.get_game_object GameWorld.CMouse
    (GameWorld.add (GameWorld.a_Mouse (Mouse.mk 2 5))
       (GameWorld.remove_game_object GameWorld.CMouse (GameWorld.of_main (Mouse.mk 1 3))))
  = Some (GameWorld.a_Mouse (Mouse.mk 2 5)).
Proof.
  apply (registry_round_trip GameWorld.CMouse (GameWorld.a_Mouse (Mouse.mk 2 5))
           (GameWorld.of_main (Mouse.mk 1 3))).
  reflexivity.
Defined.

(** X15: the registry of the running game is the info panel, the border and
    the snake, in the order [main] registers them, followed by the mice.
    On such a registry [get_game_object(Mouse)] is the first mouse,
    [remove_game_object(Mouse)] leaves the three and registering a mouse
    puts it last; the input processor's subscribers stay the snake and the
    finalizers stay the info panel.  This is the registry the list of mice
    of the world stands for. *)
Theorem registry_of_the_game (self : GameWorld.t) (ms : list Mouse.t) (m : Mouse.t) :
  GameWorld.game_objects self
    = [GameWorld.an_Info; GameWorld.a_Border; GameWorld.a_Snake] ++ (GameWorld.a_Mouse <$> ms) →
  GameWorld.get_game_object GameWorld.CMouse self = GameWorld.a_Mouse <$> (ms !! 0%nat)
  ∧ GameWorld.mice_of self = ms
  ∧ GameWorld.mice_of (GameWorld.remove_game_object GameWorld.CMouse self) = []
  ∧ GameWorld.game_objects
      (GameWorld.add (GameWorld.a_Mouse m)
         (GameWorld.remove_game_object GameWorld.CMouse self))
    = [GameWorld.an_Info; GameWorld.a_Border; GameWorld.a_Snake] ++ (GameWorld.a_Mouse <$> [m])
  ∧ GameWorld.subscribers
      (GameWorld.add (GameWorld.a_Mouse m)
         (GameWorld.remove_game_object GameWorld.CMouse self))
    = GameWorld.subscribers self
  ∧ GameWorld.finalizers
      (GameWorld.add (GameWorld.a_Mouse m)
         (GameWorld.remove_game_object GameWorld.CMouse self))
    = GameWorld.finalizers self.
Proof.
  intros Hobjs.
  unfold GameWorld.get_game_object, GameWorld.mice_of, GameWorld.remove_game_object,
    GameWorld.add.
  simpl. rewrite Hobjs. simpl.
  assert (Hfilter : ∀ l : list Mouse.t,
            List.filter (λ o, negb (GameWorld.isinstance o GameWorld.CMouse))
              (GameWorld.a_Mouse <$> l) = []).
  { induction l as [|a l IH]; simpl; [done|]. exact IH. }
  assert (Homap : ∀ l : list Mouse.t,
            omap (λ o, match o with GameWorld.a_Mouse m => Some m | _ => None end)
                 (GameWorld.a_Mouse <$> l) = l).
  { induction l as [|a l IH]; simpl; [done|]. f_equal. exact IH. }
  rewrite Hfilter, Homap. simpl.
  split_and!; try done. by destruct ms.
Qed.

Lemma registry_of_the_game_witness :
  GameWorld.get_game_object GameWorld.CMouse (GameWorld.of_main (Mouse.mk 1 3))
  = Some (GameWorld.a_Mouse (Mouse.mk 1 3)).
Proof.
  apply (registry_of_the_game (GameWorld.of_main (Mouse.mk 1 3)) [Mouse.mk 1 3] (Mouse.mk 1 3)).
  reflexivity.
Defined.

(** ** The window *)

Lemma fmap_flat_map {A B C} (f : B → C) (g : A → list B) (l : list A) :
  f <$> flat_map g l = flat_map (λ x, f <$> g x) l.
Proof.
  induction l as [|a l IH]; simpl; [done|]. by rewrite fmap_app, IH.
Qed.

(** [Border.draw] writes on the cells [Border.__init__] marks, in the same
    order. *)
Lemma Border_draw_cells height width :
  at_cell <$> Border_draw height width = border_cells height width.
Proof. unfold Border_draw, border_cells. by rewrite fmap_app, !fmap_flat_map. Qed.

Lemma Border_draw_text height width a : a ∈ Border_draw height width → text a = "#".
Proof.
  unfold Border_draw. rewrite elem_of_app, !list_elem_of_In, !in_flat_map.
  intros [(x & _ & Ha)|(y & _ & Ha)]; simpl in Ha; destruct Ha as [<-|[<-|[]]]; done.
Qed.

(** X16: the wall the player sees is the wall the snake hits: on a fresh
    field of at least one row and one column, the cells [Border.__init__]
    leaves marked are exactly the cells on which [Border.draw] writes, and
    it writes nothing but '#'. *)
Theorem Border_draws_what_it_marks (width height : Z) (w : World) :
  game_field w = GameField.init width height →
  1 <= height → 1 <= width →
  ∃ c',
    Border.init height width w = (Ret tt, with_cells c' w)
    ∧ (∀ p, in_grid (game_field w) p →
         marked c' p ↔ ∃ a, a ∈ Border_draw height width ∧ at_cell a = p)
    ∧ (∀ a, a ∈ Border_draw height width → text a = "#" ∧ in_grid (game_field w) (at_cell a)).
Proof.
  intros Hgf Hh Hw.
  destruct (Border_init_ring w) as (c' & Hinit & _ & Hc');
    [rewrite Hgf; apply init_well_shaped; lia|rewrite Hgf; simpl; lia..|].
  rewrite Hgf in Hinit, Hc'. simpl in Hinit. rewrite Hgf.
  exists c'. split_and!; [done| |].
  - intros p Hp. destruct (Hc' p Hp) as [Hon Hoff].
    assert (Hdraw : (∃ a, a ∈ Border_draw height width ∧ at_cell a = p)
                    ↔ on_border (GameField.init width height) p).
    { rewrite <- (border_cells_on_border _ _ Hp). simpl.
      rewrite <- Border_draw_cells, list_elem_of_fmap. split.
      - intros (a & ? & ?). by exists a.
      - intros (a & ? & ?). by exists a. }
    rewrite Hdraw. split; [|done].
    intros Hm. destruct (decide (on_border (GameField.init width height) p)) as [|Hn];
      [done|].
    unfold marked in Hm. rewrite (Hoff Hn) in Hm. destruct Hp.
    by rewrite get_init in Hm.
  - intros a Ha. split; [by eapply Border_draw_text|].
    assert (Hin : at_cell a ∈ border_cells height width).
    { rewrite <- Border_draw_cells. by apply list_elem_of_fmap_2. }
    apply elem_of_border_cells in Hin. unfold in_grid. simpl in *. lia.
Qed.

Lemma Border_draws_what_it_marks_witness :
  ∃ c',
    Border.init 8 26 (mkWorld (GameField.init 26 8) RIGHT false [] [] 0)
    = (Ret tt, with_cells c' (mkWorld (GameField.init 26 8) RIGHT false [] [] 0))
    ∧ (∀ p, in_grid (GameField.init 26 8) p →
         marked c' p ↔ ∃ a, a ∈ Border_draw 8 26 ∧ at_cell a = p)
    ∧ (∀ a, a ∈ Border_draw 8 26 → text a = "#" ∧ in_grid (GameField.init 26 8) (at_cell a)).
Proof.
  apply (Border_draws_what_it_marks 26 8 (mkWorld (GameField.init 26 8) RIGHT false [] [] 0));
    [reflexivity|lia|lia].
Defined.

Lemma Snake_draw_cells w : at_cell <$> Snake_draw w = pos <$> snake_elements w.
Proof.
  unfold Snake_draw. induction (snake_elements w) as [|e l IH]; simpl; [done|].
  f_equal. exact IH.
Qed.

Lemma Snake_draw_elem w a :
  a ∈ Snake_draw w → text a = "X" ∧ on_snake w (at_cell a).
Proof.
  unfold Snake_draw, on_snake. rewrite list_elem_of_In, in_flat_map.
  intros (e & He%list_elem_of_In & [<-|[]]). split; [done|].
  apply list_elem_of_fmap. by exists e.
Qed.

Lemma Mouse_draw_elem ms a :
  a ∈ flat_map Mouse_draw ms → text a = "M" ∧ ∃ m, m ∈ ms ∧ at_cell a = mouse_pos m.
Proof.
  rewrite list_elem_of_In, in_flat_map.
  intros (m & Hm%list_elem_of_In & [<-|[]]). split; [done|]. by exists m.
Qed.

(** [_draw_objects] draws the info panel, the border, the snake and the
    mice, in this order. *)
Lemma _draw_objects_eq w i :
  _draw_objects w i
  = Info.draw i (score w)
    ++ Border_draw (GameField.height (game_field w)) (GameField.width (game_field w))
    ++ Snake_draw w ++ flat_map Mouse_draw (mice w).
Proof.
  unfold _draw_objects, game_objects_of. simpl. do 3 f_equal.
  induction (mice w) as [|m ms IH]; simpl; [done|]. f_equal. exact IH.
Qed.

(** X17: what is drawn on the field while the game runs is unambiguous.
    In every state the game reaches through key events and ticks that all
    return (the states the loop draws after a tick; not the state a raising
    tick leaves, which the handler of [run] draws last), the border, the
    segments and the mouse are drawn on different cells (two calls that
    write on the same cell write the same glyph), no two segments are drawn
    on the same cell, every 'X' is on a marked cell and the 'M' is on a free
    one. *)
Theorem frame_is_unambiguous (KEY_LEFT KEY_RIGHT KEY_UP KEY_DOWN width height : Z)
    (r0 r1 : nat) (steps : list step) (w : World) :
  play KEY_LEFT KEY_RIGHT KEY_UP KEY_DOWN width height r0 r1 steps = (Ret tt, w) →
  let on_field :=
    Border_draw (GameField.height (game_field w)) (GameField.width (game_field w))
    ++ Snake_draw w ++ flat_map Mouse_draw (mice w) in
  (∀ i, _draw_objects w i = Info.draw i (score w) ++ on_field)
  ∧ (∀ a b, a ∈ on_field → b ∈ on_field → at_cell a = at_cell b → text a = text b)
  ∧ NoDup (at_cell <$> Snake_draw w)
  ∧ (∀ a, a ∈ Snake_draw w → marked (GameField.cells (game_field w)) (at_cell a))
  ∧ (∀ a, a ∈ flat_map Mouse_draw (mice w) →
          free (GameField.cells (game_field w)) (at_cell a)).
Proof.
  intros Hplay on_field.
  apply play_GameInv in Hplay.
  pose proof (GameInv_mouse _ Hplay) as (m & Hmice & Hscan & Hfree & _ & Hoff).
  destruct Hplay as ([_ _ Hnd Hint Hocc] & _ & _).
  assert (Hkind : ∀ a, a ∈ on_field →
    (text a = "#" ∧ ¬ interior (game_field w) (at_cell a))
    ∨ (text a = "X" ∧ on_snake w (at_cell a))
    ∨ (text a = "M" ∧ at_cell a = mouse_pos m)).
  { intros a. unfold on_field. rewrite !elem_of_app. intros [Ha|[Ha|Ha]].
    - left. split; [by eapply Border_draw_text|].
      assert (Hin : at_cell a ∈ border_cells (GameField.height (game_field w))
                                (GameField.width (game_field w))).
      { rewrite <- Border_draw_cells. by apply list_elem_of_fmap_2. }
      apply elem_of_border_cells in Hin. unfold interior. lia.
    - right. left. by apply Snake_draw_elem.
    - right. right. apply Mouse_draw_elem in Ha as (? & m' & Hm' & ?).
      rewrite Hmice in Hm'. apply list_elem_of_singleton in Hm' as ->. done. }
  assert (Hsnake_int : ∀ p, on_snake w p → interior (game_field w) p).
  { intros p (e & -> & He)%list_elem_of_fmap.
    by eapply Forall_forall in Hint. }
  split_and!.
  - intros i. apply _draw_objects_eq.
  - intros a b Ha Hb Hab.
    destruct (Hkind a Ha) as [[Hta Hca]|[[Hta Hca]|[Hta Hca]]],
             (Hkind b Hb) as [[Htb Hcb]|[[Htb Hcb]|[Htb Hcb]]];
      try congruence; exfalso;
      first [ apply Hca; rewrite Hab; by apply Hsnake_int
            | apply Hca; rewrite Hab, Hcb; by apply scanned_interior
            | apply Hcb; rewrite <- Hab; by apply Hsnake_int
            | apply Hcb; rewrite <- Hab, Hca; by apply scanned_interior
            | apply Hoff; rewrite <- Hcb, <- Hab; done
            | apply Hoff; rewrite <- Hca, Hab; done ].
  - by rewrite Snake_draw_cells.
  - intros a [_ Hon]%Snake_draw_elem.
    apply Hocc; [by apply interior_in_grid, Hsnake_int|by right].
  - intros a (_ & m' & Hm' & ->)%Mouse_draw_elem.
    rewrite Hmice in Hm'. by apply list_elem_of_singleton in Hm' as ->.
Qed.

Lemma frame_is_unambiguous_witness :
  NoDup (at_cell <$> Snake_draw world_chasing_tail).
Proof.
  apply (frame_is_unambiguous 260 261 259 258 26 8 0 0 steps_chasing_tail world_chasing_tail).
  vm_compute. reflexivity.
Defined.

(** ** The loop *)



Lemma _draw_objects_heading w i d b :
  _draw_objects (with_direction_changed b (with_direction d w)) i = _draw_objects w i.
Proof. done. Qed.







(** * The tick beside the input thread *)

(** ** Key events in closed form *)

Lemma retag_id w : with_direction_changed (direction_changed w) (with_direction (direction w) w) = w.
Proof. by destruct w. Qed.

(** Key events never raise and touch nothing but the heading and the
    per-tick flag; the heading they leave is the one before them or one
    across it, and the one before them when the flag was set. *)
Lemma keys_spec kl kr ku kd events : ∀ w,
  ∃ d b,
    keys kl kr ku kd events w = (Ret tt, with_direction_changed b (with_direction d w))
    ∧ (d = direction w ∨ same_axis (direction w) d = false)
    ∧ (direction_changed w = true → d = direction w)
    ∧ (events = [] → d = direction w).
Proof.
  unfold keys, for_each.
  induction events as [|ev events IH]; intros w.
  - exists (direction w), (direction_changed w). simpl. unfold mret, M_ret.
    rewrite retag_id. by split_and!; auto.
  - simpl. rewrite bind_eq, event_received_spec.
    destruct (Direction_of kl kr ku kd ev) as [new|].
    + destruct (direction_changed w) eqn:Hflag.
      * destruct (IH w) as (d & b & -> & Hd & Hset & _).
        exists d, b. split_and!; [done|done|by auto|done].
      * destruct (IH (with_direction_changed true
                        (with_direction (if same_axis (direction w) new
                                         then direction w else new) w)))
          as (d & b & -> & _ & Hset & _).
        simpl in Hset. specialize (Hset eq_refl). subst d.
        eexists _, b. split_and!; [by destruct w| |done|done].
        destruct (same_axis (direction w) new) eqn:Hax; auto.
    + destruct (IH w) as (d & b & -> & Hd & Hset & _).
      exists d, b. split_and!; [done|done|by auto|done].
Qed.

(** ** What the tail shift is blind to *)

Lemma heading_blind_bind {A B} (m : M A) (f : A → M B) :
  heading_blind m → (∀ a, heading_blind (f a)) → heading_blind (bind m f).
Proof.
  intros Hm Hf d b w. rewrite !bind_eq, Hm.
  destruct (m w) as [[a|e] w1]; simpl; [apply Hf|done].
Qed.

Lemma heading_blind_seq {A B} (m : M A) (k : M B) :
  heading_blind m → heading_blind k → heading_blind (m;; k).
Proof.
  intros Hm Hk d b w. rewrite !seq_eq, Hm.
  destruct (m w) as [[a|e] w1]; simpl; [apply Hk|done].
Qed.

Lemma heading_blind_mret {A} (a : A) : heading_blind (mret a).
Proof. done. Qed.

Lemma heading_blind_element i : heading_blind (element i).
Proof. done. Qed.

Lemma heading_blind_set_element i e : heading_blind (set_element i e).
Proof.
  intros d b w. rewrite !set_element_eq. simpl.
  by destruct (py_setitem _ _ _).
Qed.

Lemma heading_blind_set_cell y x v : heading_blind (set_cell y x v).
Proof.
  intros d b w. rewrite !set_cell_eq. simpl.
  by destruct (GameField.set _ _ _ _).
Qed.

Lemma heading_blind_for_fold {A B} (body : A → B → M B) (l : list A) :
  (∀ a acc, heading_blind (body a acc)) → ∀ acc, heading_blind (for_fold l acc body).
Proof.
  intros Hbody. induction l as [|a l IH]; intros acc; simpl.
  - apply heading_blind_mret.
  - apply heading_blind_bind; [apply Hbody|done].
Qed.

Lemma heading_blind__move_tail : heading_blind Snake._move_tail.
Proof.
  unfold Snake._move_tail.
  apply heading_blind_bind; [apply heading_blind_element|]. intros e0.
  apply heading_blind_bind; [done|]. intros n.
  apply heading_blind_bind; [|intros; apply heading_blind_set_cell].
  apply heading_blind_for_fold. intros i prev. unfold Snake._move_tail_body.
  apply heading_blind_bind; [apply heading_blind_element|]. intros tmp.
  apply heading_blind_seq; [apply heading_blind_set_element|].
  apply heading_blind_seq; [apply heading_blind_set_cell|].
  apply heading_blind_mret.
Qed.

(** What key events do depends on the heading and the flag alone. *)
Lemma keys_same kl kr ku kd events : ∀ w w',
  direction w' = direction w → direction_changed w' = direction_changed w →
  ∃ d b,
    keys kl kr ku kd events w = (Ret tt, with_direction_changed b (with_direction d w))
    ∧ keys kl kr ku kd events w' = (Ret tt, with_direction_changed b (with_direction d w')).
Proof.
  unfold keys, for_each.
  induction events as [|ev events IH]; intros w w' Hd Hb.
  - exists (direction w), (direction_changed w). simpl. unfold mret, M_ret.
    by rewrite retag_id, <- Hd, <- Hb, retag_id.
  - simpl. rewrite !bind_eq, !event_received_spec, Hd, Hb.
    destruct (Direction_of kl kr ku kd ev) as [new|]; [|by apply IH].
    destruct (direction_changed w) eqn:Hflag; [apply IH; congruence|].
    destruct (IH (with_direction_changed true
                    (with_direction (if same_axis (direction w) new
                                     then direction w else new) w))
                 (with_direction_changed true
                    (with_direction (if same_axis (direction w) new
                                     then direction w else new) w')) eq_refl eq_refl)
      as (d & b & -> & ->).
    exists d, b. split; [by destruct w|by destruct w'].
Qed.

(** A key received while the tail shifts acts like a key received before
    the tick. *)
Lemma action_with_keys_before kl kr ku kd r k0 k1 k2 w :
  (Snake._move_tail w).1 = Ret tt →
  action_with_keys kl kr ku kd r k0 k1 k2 w
  = action_with_keys kl kr ku kd r [] k1 k2 (keys kl kr ku kd k0 w).2.
Proof.
  intros Htail.
  pose proof (heading_blind__move_tail (direction w) (direction_changed w) w) as Hsame.
  rewrite retag_id in Hsame.
  destruct (Snake._move_tail w) as [[[]|e] w1] eqn:Hmt; [|done]. simpl in Hsame.
  injection Hsame as Hw1.
  destruct (keys_same kl kr ku kd k0 w w1) as (d & b & Hk & Hk1);
    [by rewrite Hw1..|].
  rewrite Hk. simpl.
  unfold action_with_keys. rewrite !(seq_eq Snake._move_tail).
  rewrite heading_blind__move_tail, Hmt. simpl.
  rewrite !(seq_eq (keys _ _ _ _ _)), Hk1. done.
Qed.

(** ** The tick with keys, in closed form *)

(** Without key events the tick is [Snake.action]. *)
Lemma action_with_keys_nil kl kr ku kd r w :
  action_with_keys kl kr ku kd r [] [] [] w = Snake.action r w.
Proof.
  unfold action_with_keys, Snake.action, Snake.move, keys, for_each. simpl.
  unfold bind, mbind, M_bind, mret, M_ret.
  destruct (Snake._move_tail w) as [[[]|e] w1]; [|done].
  destruct (Snake._move_head w1) as [[[]|e] w2]; [|done].
  destruct (Snake.get_game_object_Mouse w2) as [[m|e] w3]; [|done].
  destruct (Snake.head w3) as [[h|e] w4]; [|done].
  destruct (Mouse.intersect m h); [|done].
  destruct (Snake.grow w4) as [[[]|e] w5]; done.
Qed.

(** The tick with keys in which the snake eats. *)
Lemma action_with_keys_eats kl kr ku kd w r k1 k2 w1 m ms h t :
  Snake.move w = (Ret tt, w1) → mice w1 = m :: ms → snake_elements w1 = h :: t →
  Mouse.intersect m h = true →
  action_with_keys kl kr ku kd r [] k1 k2 w =
  match Snake._move_head (with_snake_elements (h :: h :: t) (keys kl kr ku kd k1 w1).2) with
  | (Ret _, w2) =>
      let w3 := (keys kl kr ku kd k2 w2).2 in
      match GameField.get_free_cell (game_field w3) r with
      | Ret c =>
          (Ret tt, with_direction_changed false
                     (with_mice [Mouse.mk c.1 c.2] (with_score (score w3 + 1) w3)))
      | Raise e => (Raise e, with_mice [] (with_score (score w3 + 1) w3))
      end
  | (Raise e, w2) => (Raise e, w2)
  end.
Proof.
  intros Hmove Hmice Hse Hint.
  unfold Snake.move in Hmove. rewrite seq_eq in Hmove.
  unfold action_with_keys. rewrite seq_eq.
  destruct (Snake._move_tail w) as [[[]|e] wt]; [|done].
  change (keys kl kr ku kd [] ) with (mret tt : M unit).
  rewrite seq_eq. simpl. rewrite seq_eq, Hmove, seq_eq.
  destruct (keys_spec kl kr ku kd k1 w1) as (d & b & -> & _). simpl.
  unfold Snake.get_game_object_Mouse.
  rewrite bind_eq, bind_eq. simpl. rewrite Hmice. simpl.
  unfold Snake.head. rewrite bind_eq, element_eq. simpl. rewrite Hse, py_getitem_0. simpl.
  rewrite seq_eq, Hint, seq_eq.
  rewrite (grow_eq _ h t) by done.
  destruct (Snake._move_head (with_snake_elements (h :: h :: t)
              (with_direction_changed b (with_direction d w1)))) as [[[]|e] w2]; [|done].
  destruct (keys_spec kl kr ku kd k2 w2) as (d2 & b2 & Hk2 & _).
  rewrite seq_eq, Hk2. simpl.
  rewrite seq_eq. simpl. rewrite seq_eq. simpl. rewrite bind_eq. simpl.
  rewrite bind_eq. unfold lift.
  by destruct (GameField.get_free_cell _ _).
Qed.

(** ** Eating *)

(** C6 as stated fails: in the first tick of the game of [main] with the
    mouse one cell ahead, the head is on (1, 1) before [move] and on the
    mouse, (1, 2), after it; the tick returns with the snake on (1, 3) and
    (1, 2).  The segment that was added lies on the cell of the head after
    [move], and no segment is on the cell of the head before [move]. *)
Lemma pre_move_head_cell_left_on_eating :
  main 26 8 0 0 = (Ret tt, world_mouse_ahead)
  ∧ snake_elements world_mouse_ahead = [SnakeElement.mk 1 1]
  ∧ mice world_mouse_ahead = [Mouse.mk 1 2]
  ∧ eats world_mouse_ahead = true
  ∧ snake_elements (Snake.move world_mouse_ahead).2 = [SnakeElement.mk 1 2]
  ∧ (Snake.action 0 world_mouse_ahead).1 = Ret tt
  ∧ snake_elements (Snake.action 0 world_mouse_ahead).2
    = [SnakeElement.mk 1 3; SnakeElement.mk 1 2]
  ∧ ¬ on_snake (Snake.action 0 world_mouse_ahead).2 (pos (SnakeElement.mk 1 1)).
Proof.
  split_and!; try (by vm_compute).
  unfold on_snake.
  replace (snake_elements (Snake.action 0 world_mouse_ahead).2)
    with [SnakeElement.mk 1 3; SnakeElement.mk 1 2] by (by vm_compute).
  intros Hin. simpl in Hin. rewrite !elem_of_cons, elem_of_nil in Hin.
  unfold pos in Hin. simpl in Hin. by destruct Hin as [?|[?|?]].
Qed.

(** C6, amended: in a tick in which the head left by [move] is on the
    mouse, whatever key events are received between the advance of [move]
    and the advance of [grow] and after them, the snake has one segment more
    after the tick than before it.  [grow] inserts a duplicate of the
    current head in front of the list and only then advances the head, so
    after the tick the segment behind the head sits where the head was when
    [grow] was called: on the cell of the head after [move], one cell from
    the cell of the head before [move] in the heading of the tick.  Behind it
    come the segments as [move] left them, the list before the tick without
    its last segment.  The head itself is one cell further in the heading
    [grow] reads, or still on that cell when its advance raised. *)
Theorem grow_on_eating (KEY_LEFT KEY_RIGHT KEY_UP KEY_DOWN : Z)
    (w : World) (r : nat) (k1 k2 : list Z) :
  eats w = true →
  let w1 := (Snake.move w).2 in
  let w1' := (keys KEY_LEFT KEY_RIGHT KEY_UP KEY_DOWN k1 w1).2 in
  let w2 := (action_with_keys KEY_LEFT KEY_RIGHT KEY_UP KEY_DOWN r [] k1 k2 w).2 in
  length (snake_elements w2) = S (length (snake_elements w))
  ∧ (∃ h0 lst h t h',
      head (snake_elements w) = Some h0
      ∧ snake_elements w = t ++ [lst]
      ∧ h = advance (direction w) h0
      ∧ snake_elements w1 = h :: t
      ∧ Snake.grow w1' = Snake._move_head (with_snake_elements (h :: h :: t) w1')
      ∧ snake_elements w2 = h' :: h :: t
      ∧ (h' = h ∨ h' = advance (direction w1') h))
  ∧ action_with_keys KEY_LEFT KEY_RIGHT KEY_UP KEY_DOWN r [] [] [] w = Snake.action r w.
Proof.
  intros (w1 & m & ms & h & t & Hmove & Hmice & Hse & Hint)%eats_inv.
  rewrite (action_with_keys_eats _ _ _ _ w r k1 k2 w1 m ms h t) by done.
  rewrite Hmove. simpl.
  split_and!; [| |apply action_with_keys_nil].
  all: destruct (keys_spec KEY_LEFT KEY_RIGHT KEY_UP KEY_DOWN k1 w1) as (d & b & Hk1 & _);
    rewrite Hk1; simpl.
  all: pose proof Hmove as (e0 & init & lst & c & Hw & Hhd & ->)%move_Ret;
    simpl in Hse; injection Hse as <- <-.
  all: rewrite (_move_head_spec _ (advance (direction w) e0) (advance (direction w) e0 :: init))
    by done; simpl.
  - rewrite Hw, length_app. simpl.
    destruct (GameField.get _ _ _) as [[]|]; simpl; [lia| |lia].
    destruct (GameField.set _ _ _ _); simpl; [|lia].
    match goal with
    | |- context [keys _ _ _ _ k2 ?x] =>
        destruct (keys_spec KEY_LEFT KEY_RIGHT KEY_UP KEY_DOWN k2 x) as (d2 & b2 & -> & _)
    end. simpl.
    destruct (GameField.get_free_cell _ _); simpl; lia.
  - exists e0, lst, (advance (direction w) e0), init.
    assert (∀ h', (h' = advance (direction w) e0 ∨ h' = advance d (advance (direction w) e0)) →
      head (snake_elements w) = Some e0
      ∧ snake_elements w = init ++ [lst]
      ∧ advance (direction w) e0 = advance (direction w) e0
      ∧ advance (direction w) e0 :: init = advance (direction w) e0 :: init
      ∧ Snake.grow (with_direction_changed b (with_direction d
           (with_cells c (with_snake_elements (advance (direction w) e0 :: init) w))))
        = Snake._move_head (with_snake_elements
            (advance (direction w) e0 :: advance (direction w) e0 :: init)
            (with_direction_changed b (with_direction d
               (with_cells c (with_snake_elements (advance (direction w) e0 :: init) w)))))
      ∧ h' :: advance (direction w) e0 :: init = h' :: advance (direction w) e0 :: init
      ∧ (h' = advance (direction w) e0 ∨ h' = advance d (advance (direction w) e0))) as Hall.
    { intros h' Hh'. split_and!; try done. by apply grow_eq. }
    destruct (GameField.get _ _ _) as [[]|]; simpl;
      [eexists; apply Hall; by left| |eexists; apply Hall; by left].
    destruct (GameField.set _ _ _ _); simpl; [|eexists; apply Hall; by right].
    match goal with
    | |- context [keys _ _ _ _ k2 ?x] =>
        destruct (keys_spec KEY_LEFT KEY_RIGHT KEY_UP KEY_DOWN k2 x) as (d2 & b2 & -> & _)
    end. simpl.
    destruct (GameField.get_free_cell _ _); simpl; eexists; apply Hall; by right.
Qed.

Lemma grow_on_eating_witness :
  length (snake_elements (Snake.action 0 world_mouse_ahead).2) = 2%nat
  ∧ length (snake_elements
              (action_with_keys 260 261 259 258 0 [] [258] [261] world_mouse_ahead).2) = 2%nat.
Proof.
  split.
  - rewrite <- (action_with_keys_nil 260 261 259 258).
    apply (grow_on_eating 260 261 259 258 world_mouse_ahead 0 [] []). reflexivity.
  - apply (grow_on_eating 260 261 259 258 world_mouse_ahead 0 [258] [261]). reflexivity.
Defined.

(** ** The two advances of the head *)

(** C9 as stated fails: [action] does not hold [direction_lock] from
    [move] to [grow], so a key event can be received between the two
    advances of the head.  In the first tick of the game of [main] with the
    mouse one cell ahead, the head starts on (1, 1) heading right; the down
    key received after [move] turns the second advance, the tick returns,
    and the head ends on (2, 2), which is two cells from (1, 1) in no
    heading. *)
Lemma turn_between_the_two_advances :
  main 26 8 0 0 = (Ret tt, world_mouse_ahead)
  ∧ head (snake_elements world_mouse_ahead) = Some (SnakeElement.mk 1 1)
  ∧ direction world_mouse_ahead = RIGHT
  ∧ eats world_mouse_ahead = true
  ∧ Direction_of 260 261 259 258 258 = Some DOWN
  ∧ (action_with_keys 260 261 259 258 0 [] [258] [] world_mouse_ahead).1 = Ret tt
  ∧ head (snake_elements (action_with_keys 260 261 259 258 0 [] [258] [] world_mouse_ahead).2)
    = Some (SnakeElement.mk 2 2)
  ∧ ∀ d, SnakeElement.mk 2 2 ≠ advance d (advance d (SnakeElement.mk 1 1)).
Proof.
  split_and!; try (by vm_compute).
  by intros [].
Qed.

(** C9, amended: in a tick in which the snake eats and no game-over signal
    is raised, the head ends where two advances take it from where it
    started: one cell in the heading [move] reads, then one cell in the
    heading [grow] reads.  A key event received between the two can turn the
    second advance across the first, never back; when no key event is
    received between them, or the per-tick flag is already set, the two
    headings are the same and the head ends two cells from where it started
    in the heading.  The second advance is checked like the first: if its
    cell is marked once [move] is done, the tick raises the collision signal
    of the heading [grow] reads. *)
Theorem head_advances_twice_on_eating (KEY_LEFT KEY_RIGHT KEY_UP KEY_DOWN : Z)
    (w : World) (r : nat) (k1 k2 : list Z) (h0 : SnakeElement.t) :
  head (snake_elements w) = Some h0 →
  eats w = true →
  let tick := action_with_keys KEY_LEFT KEY_RIGHT KEY_UP KEY_DOWN r [] k1 k2 w in
  let d := direction w in
  let d' := direction (keys KEY_LEFT KEY_RIGHT KEY_UP KEY_DOWN k1 (Snake.move w).2).2 in
  (tick.1 = Ret tt →
   head (snake_elements tick.2) = Some (advance d' (advance d h0)))
  ∧ (marked (GameField.cells (game_field (Snake.move w).2)) (pos (advance d' (advance d h0))) →
     tick.1 = Raise (GameOver (bumped d')))
  ∧ (d' = d ∨ same_axis d d' = false)
  ∧ (k1 = [] ∨ direction_changed w = true → d' = d)
  ∧ action_with_keys KEY_LEFT KEY_RIGHT KEY_UP KEY_DOWN r [] [] [] w = Snake.action r w.
Proof.
  intros Hh0 (w1 & m & ms & h & t & Hmove & Hmice & Hse & Hint)%eats_inv tick d d'.
  subst tick d'.
  rewrite (action_with_keys_eats _ _ _ _ w r k1 k2 w1 m ms h t) by done.
  rewrite Hmove. simpl.
  destruct (keys_spec KEY_LEFT KEY_RIGHT KEY_UP KEY_DOWN k1 w1)
    as (d1 & b1 & Hk1 & Hturn & Hset & Hnil).
  rewrite Hk1. simpl.
  apply move_Ret in Hmove as (e0 & init & lst & c & Hw & Hhd & ->).
  simpl in Hse, Hturn, Hset, Hnil. simplify_eq. fold d in Hturn, Hset, Hnil |- *.
  split_and!; [| |done|by intros [?|?]; auto|apply action_with_keys_nil].
  all: erewrite _move_head_spec; [|reflexivity]; simpl; unfold marked; simpl.
  all: destruct (GameField.get c _ _) as [[]|]; simpl; [done| |done].
  all: destruct (GameField.set c _ _ _); simpl; [|done].
  all: match goal with
       | |- context [keys ?kl ?kr ?ku ?kd ?k ?x] =>
           destruct (keys_spec kl kr ku kd k x) as (d2 & b2 & -> & _)
       end; simpl.
  all: destruct (GameField.get_free_cell _ _); simpl; done.
Qed.

Lemma head_advances_twice_on_eating_witness :
  head (snake_elements (Snake.action 0 world_mouse_ahead).2) = Some (SnakeElement.mk 1 3)
  ∧ head (snake_elements (action_with_keys 260 261 259 258 0 [] [258] [] world_mouse_ahead).2)
    = Some (SnakeElement.mk 2 2)
  ∧ (Snake.action 0 world_mouse_at_wall).1 = Raise (GameOver "bumped left").
Proof.
  split_and!.
  - rewrite <- (action_with_keys_nil 260 261 259 258).
    apply (head_advances_twice_on_eating 260 261 259 258 world_mouse_ahead 0 [] []
             (SnakeElement.mk 1 1)); reflexivity.
  - apply (head_advances_twice_on_eating 260 261 259 258 world_mouse_ahead 0 [258] []
             (SnakeElement.mk 1 1)); reflexivity.
  - rewrite <- (action_with_keys_nil 260 261 259 258).
    apply (head_advances_twice_on_eating 260 261 259 258 world_mouse_at_wall 0 [] []
             (SnakeElement.mk 1 2)); reflexivity.
Defined.
